(** * JSON parser UI: error localisation and tree rendering

    A shallow embedding of the three pieces of logic of the repository:

    - [getLineAndColumn]   (src/components/ErrorMessage.tsx)
    - [calculateErrorRange] (src/App.tsx)
    - [JsonNode]            (the JsonViewer component)

    JavaScript strings are sequences of UTF-16 code units; indices and
    lengths are JavaScript numbers holding integers, modelled as [Z]. *)

From Stdlib Require Import ZArith NArith List Bool Lia Ascii String.
From Stdlib Require Import Permutation Sorted.
From Stdlib Require Import Floats.
Import ListNotations.
Local Open Scope Z_scope.
Set Warnings "-register-all".

(* ================================================================== *)
(** ** JavaScript strings *)

Module JS.

Definition code_unit := N.
Definition jsstring := list code_unit.

(** [a.length] of an array *)
Definition array_length {A : Type} (a : list A) : Z := Z.of_nat (List.length a).

(** [s.length] *)
Definition length (s : jsstring) : Z := array_length s.

(** [s[i]]: the code unit at index [i], or [undefined] ([None]). *)
Definition index (s : jsstring) (i : Z) : option code_unit :=
  if i <? 0 then None else nth_error s (Z.to_nat i).

(** A string literal of the source, as code units. *)
Definition lit (s : string) : jsstring :=
  map N_of_ascii (list_ascii_of_string s).

Definition LF : code_unit := 10%N.      (* '\n' *)
Definition DQUOTE : code_unit := 34%N.  (* the double quote *)

(** [x === c] where [x] is [s[i]] and [c] a one-character literal. *)
Definition is_char (x : option code_unit) (c : code_unit) : bool :=
  match x with
  | Some u => N.eqb u c
  | None => false
  end.

Fixpoint startsWith (s prefix : jsstring) {struct prefix} : bool :=
  match prefix, s with
  | [], _ => true
  | _ :: _, [] => false
  | p :: prefix', c :: s' => N.eqb c p && startsWith s' prefix'
  end.

(** [s.includes(sub)] *)
Fixpoint includes (s sub : jsstring) : bool :=
  startsWith s sub ||
  match s with
  | [] => false
  | _ :: s' => includes s' sub
  end.

(** [s.lastIndexOf(c)] for a one-character [c]; [i] is the index of the
    head of [s] in the whole string.  [-1] when [c] does not occur. *)
Fixpoint lastIndexOf_from (s : jsstring) (c : code_unit) (i : Z) : Z :=
  match s with
  | [] => -1
  | u :: s' =>
      let later := lastIndexOf_from s' c (i + 1) in
      if later >? -1 then later
      else if N.eqb u c then i else -1
  end.

Definition lastIndexOf (s : jsstring) (c : code_unit) : Z :=
  lastIndexOf_from s c 0.

(** The class [\d]. *)
Definition is_digit (u : code_unit) : bool :=
  (48 <=? u)%N && (u <=? 57)%N.

(** The class [\s] of a regular expression without the [u] flag:
    WhiteSpace and LineTerminator code points, all in the BMP. *)
Definition is_space (u : code_unit) : bool :=
  ((9 <=? u) && (u <=? 13) || (u =? 32) || (u =? 160) || (u =? 5760)
   || (8192 <=? u) && (u <=? 8202) || (u =? 8232) || (u =? 8233)
   || (u =? 8239) || (u =? 8287) || (u =? 12288) || (u =? 65279))%N.

(** The longest prefix of digits, and what follows it. *)
Fixpoint span_digits (s : jsstring) : jsstring * jsstring :=
  match s with
  | [] => ([], [])
  | u :: s' =>
      if is_digit u
      then let (ds, rest) := span_digits s' in (u :: ds, rest)
      else ([], s)
  end.

(** [parseInt(s, 10)] on the strings a [(\d+)] group can hold: the
    decimal value of the leading digits.  The result is exact below
    2^53; above it JavaScript rounds, monotonically, so comparisons with
    a string length (always below 2^53) are the same as on the exact
    value. *)
Definition parseInt10 (s : jsstring) : Z :=
  fold_left (fun acc u => acc * 10 + (Z.of_N u - 48)) (fst (span_digits s)) 0.

End JS.

Import JS.

(* ================================================================== *)
(** ** PositionMapper: [getLineAndColumn] *)

Record LineColumn := { line : Z; column : Z }.

(** The [for] loop of [getLineAndColumn]: [n] bounds the iterations that
    remain, the other arguments are the loop variables. *)
Fixpoint getLineAndColumn_loop (text : jsstring) (position : Z) (n : nat)
    (i line lastLineStart : Z) : Z * Z :=
  match n with
  | O => (line, lastLineStart)
  | S n' =>
      if i <? position then
        if is_char (index text i) LF
        then getLineAndColumn_loop text position n' (i + 1) (line + 1) (i + 1)
        else getLineAndColumn_loop text position n' (i + 1) line lastLineStart
      else (line, lastLineStart)
  end.

Definition getLineAndColumn (text : jsstring) (position : Z) : option LineColumn :=
  if position >? length text then None
  else
    let (line, lastLineStart) :=
      getLineAndColumn_loop text position (Z.to_nat position) 0 1 0 in
    let column := position - lastLineStart + 1 in
    Some {| line := line; column := column |}.

(** Specification vocabulary for positions. *)

(** The number of ['\n'] at indices [0 .. o-1]. *)
Definition newlines_before (text : jsstring) (o : Z) : Z :=
  Z.of_nat (count_occ N.eq_dec (firstn (Z.to_nat o) text) LF).

(** No ['\n'] at the indices [a .. b-1]. *)
Definition no_newline_in (text : jsstring) (a b : Z) : Prop :=
  forall i, a <= i < b -> is_char (index text i) LF = false.

(** [ls] is the index just after the last ['\n'] before [o], or [0] when
    there is none. *)
Definition line_start (text : jsstring) (o ls : Z) : Prop :=
  0 <= ls <= o /\
  (ls = 0 \/ is_char (index text (ls - 1)) LF = true) /\
  no_newline_in text ls o.

(* ================================================================== *)
(** ** ErrorRangeResolver: [calculateErrorRange] *)

Record Range := { start : Z; end_ : Z }.

(** The remainder of [s] after [prefix], when [s] starts with it. *)
Fixpoint strip_prefix (s prefix : jsstring) {struct prefix} : option jsstring :=
  match prefix, s with
  | [], _ => Some s
  | _ :: _, [] => None
  | p :: prefix', c :: s' => if N.eqb c p then strip_prefix s' prefix' else None
  end.

Definition AT_POSITION : jsstring := lit "at position ".

(** An attempt to match [/at position (\d+)/] at the head of [s]: the
    greedy group [(\d+)], which needs one digit at least. *)
Definition match_here (s : jsstring) : option jsstring :=
  match strip_prefix s AT_POSITION with
  | Some rest =>
      match fst (span_digits rest) with
      | [] => None
      | ds => Some ds
      end
  | None => None
  end.

(** [errorMessage.match(/at position (\d+)/)]: group 1 of the leftmost
    match, [None] for [null]. *)
Fixpoint match_position (errorMessage : jsstring) : option jsstring :=
  match match_here errorMessage with
  | Some group1 => Some group1
  | None =>
      match errorMessage with
      | [] => None
      | _ :: rest => match_position rest
      end
  end.

(** Lines 7 to 10 of [calculateErrorRange]: the position the message
    carries, when [positionMatch] and [positionMatch[1]] are truthy. *)
Definition extract_position (errorMessage : jsstring) : option Z :=
  match match_position errorMessage with
  | None => None
  | Some [] => None
  | Some group1 => Some (parseInt10 group1)
  end.

(** The character class [[\s\{\}\[\]\(\),:dquote]]. *)
Definition is_delimiter (u : code_unit) : bool :=
  is_space u
  || (u =? 123)%N || (u =? 125)%N      (* braces *)
  || (u =? 91)%N || (u =? 93)%N        (* square brackets *)
  || (u =? 40)%N || (u =? 41)%N        (* parentheses *)
  || (u =? 44)%N || (u =? 58)%N        (* comma, colon *)
  || (u =? DQUOTE)%N.

(** [delimiters.test(text[i])].  Out of range [text[i]] is [undefined],
    tested as the string it converts to, which holds no delimiter. *)
Definition delimiters_test (x : option code_unit) : bool :=
  match x with
  | Some u => is_delimiter u
  | None => false
  end.

(** [while (start > 0 && !delimiters.test(text[start - 1])) start--;]
    with [n] a bound on the iterations that remain. *)
Fixpoint start_loop (text : jsstring) (n : nat) (start : Z) : Z :=
  match n with
  | O => start
  | S n' =>
      if (start >? 0) && negb (delimiters_test (index text (start - 1)))
      then start_loop text n' (start - 1)
      else start
  end.

(** [while (end < text.length && !delimiters.test(text[end])) end++;] *)
Fixpoint end_loop (text : jsstring) (n : nat) (end_ : Z) : Z :=
  match n with
  | O => end_
  | S n' =>
      if (end_ <? length text) && negb (delimiters_test (index text end_))
      then end_loop text n' (end_ + 1)
      else end_
  end.

Definition UNEXPECTED_END : jsstring := lit "Unexpected end of JSON input".

Definition calculateErrorRange (text errorMessage : jsstring) : option Range :=
  match extract_position errorMessage with
  | None => None
  | Some position =>
      if (position <? 0) || (position >? length text) then None
      else if includes errorMessage UNEXPECTED_END then
        let lastNewLine := lastIndexOf text LF in
        Some {| start := if lastNewLine >? -1 then lastNewLine + 1 else 0;
                end_ := length text |}
      else if (position <? length text) && delimiters_test (index text position) then
        Some {| start := position; end_ := position + 1 |}
      else
        let start := start_loop text (Z.to_nat position) position in
        let end_ := end_loop text (Z.to_nat (length text - position)) position in
        if (start =? end_) && (end_ <? length text) then
          Some {| start := position; end_ := position + 1 |}
        else
          Some {| start := start; end_ := end_ |}
  end.

(** Specification vocabulary for spans. *)

(** The message holds the literal followed by a decimal digit. *)
Definition has_position_pattern (errorMessage : jsstring) : Prop :=
  exists pre d post,
    errorMessage = pre ++ AT_POSITION ++ d :: post /\ is_digit d = true.

(** No delimiter at the indices [a .. b-1] of [text]. *)
Definition no_delimiter_in (text : jsstring) (a b : Z) : Prop :=
  forall i, a <= i < b -> delimiters_test (index text i) = false.

(** Sample inputs. *)
Definition text_two_lines : jsstring :=   (* ab LF cd *)
  lit "ab" ++ LF :: lit "cd".

Definition text_a1 : jsstring :=          (* {dq a dq :1}, 7 code units *)
  lit "{" ++ DQUOTE :: lit "a" ++ DQUOTE :: lit ":1}".
Definition text_a_bad : jsstring :=       (* {dq a dq : bad}, 10 code units *)
  lit "{" ++ DQUOTE :: lit "a" ++ DQUOTE :: lit ": bad}".
Definition text_a_open : jsstring :=      (* {dq a dq :, 5 code units *)
  lit "{" ++ DQUOTE :: lit "a" ++ DQUOTE :: lit ":".

(* ================================================================== *)
(** ** TreeRenderer: [JsonNode] *)

(** The values [JSON.parse] produces, and [undefined] for the [default]
    arm of the [typeof] switch.  An object is its own enumerable
    properties in creation order; in an object the names are distinct. *)
Inductive value : Type :=
| VNull
| VString (s : jsstring)
| VNumber (x : float)
| VBoolean (b : bool)
| VArray (items : list value)
| VObject (props : list (jsstring * value))
| VUndefined.

Definition Array_isArray (v : value) : bool :=
  match v with VArray _ => true | _ => false end.

Definition array_items (v : value) : list value :=
  match v with VArray items => items | _ => [] end.

Definition object_props (v : value) : list (jsstring * value) :=
  match v with VObject props => props | _ => [] end.

(** A property name is an array index when it is the canonical decimal
    form of an integer below 2^32 - 1. *)
Definition array_index (key : jsstring) : option N :=
  match key with
  | [] => None
  | u :: rest =>
      if forallb is_digit key
         && (negb (u =? 48)%N || match rest with [] => true | _ => false end)
         && (parseInt10 key <=? 4294967294)
      then Some (Z.to_N (parseInt10 key))
      else None
  end.

Definition is_array_index (key : jsstring) : bool :=
  match array_index key with Some _ => true | None => false end.

Fixpoint insert_index (k : N * jsstring) (l : list (N * jsstring))
    : list (N * jsstring) :=
  match l with
  | [] => [k]
  | h :: t => if (fst k <=? fst h)%N then k :: l else h :: insert_index k t
  end.

Definition sort_indices (l : list (N * jsstring)) : list (N * jsstring) :=
  fold_right insert_index [] l.

Definition index_keys (names : list jsstring) : list (N * jsstring) :=
  flat_map (fun k => match array_index k with
                     | Some n => [(n, k)]
                     | None => []
                     end) names.

Definition string_keys (names : list jsstring) : list jsstring :=
  filter (fun k => negb (is_array_index k)) names.

(** [Object.keys(o)]: the array indices in ascending numeric order, then
    the other names in creation order (OrdinaryOwnPropertyKeys). *)
Definition Object_keys (v : value) : list jsstring :=
  let names := map fst (object_props v) in
  map snd (sort_indices (index_keys names)) ++ string_keys names.

Fixpoint lookup (props : list (jsstring * value)) (key : jsstring) : value :=
  match props with
  | [] => VUndefined
  | (k, v) :: rest =>
      if list_eq_dec N.eq_dec k key then v else lookup rest key
  end.

(** [nodeData[key]] *)
Definition get (nodeData : value) (key : jsstring) : value :=
  lookup (object_props nodeData) key.

(** [l.map((x, index) => f x index)], the head of [l] having index [i]. *)
Fixpoint map_index {A B : Type} (f : A -> Z -> B) (i : Z) (l : list A) : list B :=
  match l with
  | [] => []
  | x :: l' => f x i :: map_index f (i + 1) l'
  end.

(** One child line of an expanded container: the quoted key (objects
    only), the props of the nested [<JsonNode>], and whether a comma
    follows. *)
Record row := {
  row_key : option jsstring;
  row_child : value * Z;
  row_comma : bool
}.

(** What one call of the component returns.  The two container forms
    carry [onClick={toggleCollapse}]. *)
Inductive element : Type :=
| ENothing
| ENull
| EString (s : jsstring)
| ENumber (x : float)
| EBoolean (b : bool)
| EEmpty (brackets : jsstring)
| ECollapsed (opener : jsstring) (closer : jsstring)
             (itemCount : Z) (unit_name : jsstring)
| EExpanded (opener : jsstring) (rows : list row) (closer : jsstring).

(** [useState(indentLevel > 0)] *)
Definition useState_initial (indentLevel : Z) : bool := indentLevel >? 0.

(** The body of [JsonNode], given the props and the current value of the
    state [isCollapsed]. *)
Definition JsonNode (nodeData : value) (indentLevel : Z) (isCollapsed : bool)
    : element :=
  match nodeData with
  | VNull => ENull
  | VString s => EString s
  | VNumber x => ENumber x
  | VBoolean b => EBoolean b
  | VUndefined => ENothing
  | VArray _ | VObject _ =>
      let isArray := Array_isArray nodeData in
      let keys := if isArray then [] else Object_keys nodeData in
      let itemCount :=
        if isArray then array_length (array_items nodeData)
        else array_length keys in
      if itemCount =? 0 then EEmpty (if isArray then lit "[]" else lit "{}")
      else
        let opener := if isArray then lit "[" else lit "{" in
        let closer := if isArray then lit "]" else lit "}" in
        if isCollapsed then
          ECollapsed opener closer itemCount
                     (if isArray then lit "items" else lit "keys")
        else
          EExpanded opener
            (if isArray then
               map_index (fun item index =>
                   {| row_key := None;
                      row_child := (item, indentLevel + 1);
                      row_comma :=
                        index <? array_length (array_items nodeData) - 1 |})
                 0 (array_items nodeData)
             else
               map_index (fun key index =>
                   {| row_key := Some key;
                      row_child := (get nodeData key, indentLevel + 1);
                      row_comma := index <? array_length keys - 1 |})
                 0 keys)
            closer
  end.

(** [onClick={toggleCollapse}] is present on the returned element. *)
Definition collapsible (e : element) : bool :=
  match e with
  | ECollapsed _ _ _ _ | EExpanded _ _ _ => true
  | _ => false
  end.

(** The props of the nested [<JsonNode>] elements, in order. *)
Definition child_props (e : element) : list (value * Z) :=
  match e with
  | EExpanded _ rows _ => map row_child rows
  | _ => []
  end.

(** *** Component instances

    [isCollapsed] lives in the component instance React keeps for each
    rendered [<JsonNode>].  An instance holds its props, its state and
    the instances of the [<JsonNode>] elements its last render returned.
    An element that is no longer returned has its instance, and the state
    in it, dropped; an element that appears gets a new instance. *)
Inductive instance : Type :=
| Instance (nodeData : value) (indentLevel : Z) (isCollapsed : bool)
           (children : list instance).

Definition instance_props (x : instance) : value * Z :=
  match x with Instance v d _ _ => (v, d) end.

Definition instance_children (x : instance) : list instance :=
  match x with Instance _ _ _ ch => ch end.

Definition instance_element (x : instance) : element :=
  match x with Instance v d c _ => JsonNode v d c end.

(** The nesting depth of a value: a bound on the recursion of a render. *)
Fixpoint height (v : value) : nat :=
  match v with
  | VArray items =>
      S (fold_right (fun item h => Nat.max (height item) h) O items)
  | VObject props =>
      S (fold_right (fun kv h => Nat.max (height (snd kv)) h) O props)
  | _ => O
  end.

(** First render of [<JsonNode nodeData indentLevel />]: the state takes
    its initial value and the nested elements are rendered in turn, at
    most [n] levels deep. *)
Fixpoint mount_upto (n : nat) (nodeData : value) (indentLevel : Z) : instance :=
  let isCollapsed := useState_initial indentLevel in
  Instance nodeData indentLevel isCollapsed
    match n with
    | O => []
    | S n' =>
        map (fun p => mount_upto n' (fst p) (snd p))
            (child_props (JsonNode nodeData indentLevel isCollapsed))
    end.

Definition mount (nodeData : value) (indentLevel : Z) : instance :=
  mount_upto (height nodeData) nodeData indentLevel.

(** [JsonViewer]: [<JsonNode nodeData={data} indentLevel={0} />] *)
Definition JsonViewer (data : value) : instance := mount data 0.

(** [toggleCollapse]: [setIsCollapsed(prev => !prev)] and the render
    that follows. *)
Definition toggleCollapse (x : instance) : instance :=
  match x with
  | Instance v d c _ =>
      Instance v d (negb c)
        (map (fun p => mount (fst p) (snd p))
             (child_props (JsonNode v d (negb c))))
  end.

Fixpoint update_nth {A : Type} (i : nat) (f : A -> A) (l : list A) : list A :=
  match l, i with
  | [], _ => []
  | x :: l', O => f x :: l'
  | x :: l', S i' => x :: update_nth i' f l'
  end.

(** A click on the node reached from the root by the child indices
    [path].  Only an element with the handler reacts. *)
Fixpoint click (path : list nat) (x : instance) : instance :=
  match path with
  | [] => if collapsible (instance_element x) then toggleCollapse x else x
  | i :: path' =>
      match x with
      | Instance v d c ch => Instance v d c (update_nth i (click path') ch)
      end
  end.

(** The instance of the node at [path], when it is rendered. *)
Fixpoint subtree_at (path : list nat) (x : instance) : option instance :=
  match path with
  | [] => Some x
  | i :: path' =>
      match nth_error (instance_children x) i with
      | Some y => subtree_at path' y
      | None => None
      end
  end.

Definition is_collapsed (x : instance) : bool :=
  match x with Instance _ _ c _ => c end.

(** The state of the node at [path], when it is rendered. *)
Definition flag_at (path : list nat) (x : instance) : option bool :=
  option_map is_collapsed (subtree_at path x).

(** The child instances a render of [x] creates when none exists yet. *)
Definition fresh_children (x : instance) : list instance :=
  map (fun p => mount (fst p) (snd p)) (child_props (instance_element x)).

(** What is on screen: each rendered node's element, nested. *)
Inductive view : Type :=
| View (e : element) (children : list view).

Fixpoint display (x : instance) : view :=
  match x with
  | Instance v d c ch => View (JsonNode v d c) (map display ch)
  end.

(** The instances agree with the last render: one child instance for each
    nested element, with its props. *)
Fixpoint consistent (x : instance) : Prop :=
  match x with
  | Instance v d c ch =>
      map instance_props ch = child_props (JsonNode v d c)
      /\ (fix all (l : list instance) : Prop :=
            match l with
            | [] => True
            | y :: l' => consistent y /\ all l'
            end) ch
  end.

(** The trees a user can reach from the first render of [data]. *)
Inductive reachable (data : value) : instance -> Prop :=
| reachable_mount : reachable data (JsonViewer data)
| reachable_click : forall x path,
    reachable data x -> reachable data (click path x).


(** Every instance sits at a depth that is not negative. *)
Fixpoint depths_nonneg (x : instance) : Prop :=
  match x with
  | Instance _ d _ ch =>
      0 <= d
      /\ (fix all (l : list instance) : Prop :=
            match l with
            | [] => True
            | y :: l' => depths_nonneg y /\ all l'
            end) ch
  end.

(** Specification vocabulary for the tree. *)

Definition element_rows (e : element) : list row :=
  match e with
  | EExpanded _ rows _ => rows
  | _ => []
  end.

(** A List or Record with at least one element. *)
Definition nonempty_container (v : value) : bool :=
  match v with
  | VArray (_ :: _) | VObject (_ :: _) => true
  | _ => false
  end.

(** Both names are array indices, in ascending numeric order. *)
Definition key_index_le (k1 k2 : jsstring) : Prop :=
  match array_index k1, array_index k2 with
  | Some a, Some b => (a <= b)%N
  | _, _ => False
  end.

(** Sample values: the object with the members b and 1 in that order,
    and a list in a list. *)
Definition record_b1 : value :=
  VObject [(lit "b", VNumber 1%float); (lit "1", VNumber 2%float)].

Definition nested_list : value :=
  VArray [VArray [VNumber 1%float]; VNull].

(** The first render of [nested_list] after a click on its first item,
    which expands the inner list. *)
Definition inner_expanded : instance :=
  click [0%nat] (JsonViewer nested_list).

(* ================================================================== *)
(** ** The rest of the editor: highlighter, caption, gutter, controller *)

(** More string built-ins, by their ECMAScript definitions. *)
Module Builtins.

(** An argument of [substring], clamped to [0 .. len]. *)
Definition clamp (len x : Z) : Z := Z.min (Z.max x 0) len.

(** [s.substring(a, b)]: both ends clamped, then swapped when out of
    order. *)
Definition substring (s : jsstring) (a b : Z) : jsstring :=
  let from := Z.min (clamp (length s) a) (clamp (length s) b) in
  let to := Z.max (clamp (length s) a) (clamp (length s) b) in
  firstn (Z.to_nat (to - from)) (skipn (Z.to_nat from) s).

(** [s.substring(a)] *)
Definition substring_from (s : jsstring) (a : Z) : jsstring :=
  substring s a (length s).

(** [s.split(c)] for a one-character separator [c]. *)
Fixpoint split (s : jsstring) (c : code_unit) : list jsstring :=
  match s with
  | [] => [[]]
  | u :: s' =>
      if N.eqb u c then [] :: split s' c
      else match split s' c with
           | piece :: rest => (u :: piece) :: rest
           | [] => [[u]]
           end
  end.

Fixpoint trimStart (s : jsstring) : jsstring :=
  match s with
  | [] => []
  | u :: s' => if is_space u then trimStart s' else s
  end.

Definition trimEnd (s : jsstring) : jsstring := rev (trimStart (rev s)).

(** [s.trim()]: white space and line terminators, the characters of
    [\s], removed at both ends. *)
Definition trim (s : jsstring) : jsstring := trimEnd (trimStart s).

End Builtins.

(** *** The highlighter layer (src/App.tsx, the overlay under the
    textarea) *)

Inductive segment : Type :=
| Plain (s : jsstring)
| Marked (s : jsstring).     (* the span with the red background *)

Definition segment_text (g : segment) : jsstring :=
  match g with Plain s | Marked s => s end.

(** The children of the highlighter [div]: the text in three spans when
    there is an [errorRange], in one otherwise, then a newline. *)
Definition highlighter (inputText : jsstring) (errorRange : option Range)
    : list segment :=
  match errorRange with
  | Some r =>
      [Plain (Builtins.substring inputText 0 (start r));
       Marked (Builtins.substring inputText (start r) (end_ r));
       Plain (Builtins.substring_from inputText (end_ r))]
  | None => [Plain inputText]
  end ++ [Plain [LF]].

(** The text the layer shows. *)
Definition overlay_text (l : list segment) : jsstring :=
  List.concat (map segment_text l).

(** *** The caption of [ErrorMessage] *)

(** Lines 25 to 34 of ErrorMessage.tsx: the line and column that
    [locationInfo] is built from, [None] when it stays [null]. *)
Definition locationInfo (message inputText : jsstring) : option LineColumn :=
  match extract_position message with
  | Some position => getLineAndColumn inputText position
  | None => None
  end.

(** *** The line-number gutter *)

(** The effect [setLineCount(inputText.split('\n').length)]. *)
Definition lineCount_of (inputText : jsstring) : Z :=
  array_length (Builtins.split inputText LF).

(** [Array.from({ length: lineCount || 1 }, (_, i) => i + 1)]: the
    numbers the gutter shows. *)
Definition gutter (lineCount : Z) : list Z :=
  let n := if lineCount =? 0 then 1 else lineCount in
  map (fun i => Z.of_nat i + 1) (seq 0 (Z.to_nat n)).

(** *** The controller: the parse effect of [App] *)

(** What [JSON.parse(inputText)] does: it returns a value, throws an
    [Error] with a message, or throws something else. *)
Inductive parse_outcome : Type :=
| Returns (json : value)
| ThrowsError (message : jsstring)
| ThrowsOther.

(** The three pieces of state the effect sets; [null] is [VNull] for
    [parsedJson] and [None] for the other two. *)
Record AppState := {
  parsedJson : value;
  error : option jsstring;
  errorRange : option Range
}.

Definition is_null (v : value) : bool :=
  match v with VNull => true | _ => false end.

(** A [string | null] used as a condition. *)
Definition truthy (s : option jsstring) : bool :=
  match s with
  | Some (_ :: _) => true
  | _ => false
  end.

(** The effect on [inputText], with the built-in parser as a
    parameter.  Every branch sets all three pieces of state. *)
Definition parse_effect (JSON_parse : jsstring -> parse_outcome)
    (inputText : jsstring) : AppState :=
  match Builtins.trim inputText with
  | [] => {| parsedJson := VNull; error := None; errorRange := None |}
  | _ :: _ =>
      match JSON_parse inputText with
      | Returns json =>
          {| parsedJson := json; error := None; errorRange := None |}
      | ThrowsError message =>
          {| parsedJson := VNull;
             error := Some message;
             errorRange := calculateErrorRange inputText message |}
      | ThrowsOther =>
          {| parsedJson := VNull;
             error := Some (lit "An unknown error occurred.");
             errorRange := None |}
      end
  end.

(** What the output panel and the footer show. *)
Inductive shown : Type :=
| ShowTree (x : instance)       (* <JsonViewer data={parsedJson} /> *)
| ShowPlaceholder               (* Valid JSON will be displayed here. *)
| ShowInvalid.                  (* Invalid JSON input. *)

Definition output_panel (st : AppState) : list shown :=
  (if negb (is_null (parsedJson st))
   then [ShowTree (JsonViewer (parsedJson st))] else [])
  ++ (if is_null (parsedJson st) && negb (truthy (error st))
      then [ShowPlaceholder] else [])
  ++ (if truthy (error st) then [ShowInvalid] else []).

(** The footer: [error && <ErrorMessage message={error} ... />], as
    the caption it carries. *)
Definition footer (st : AppState) (inputText : jsstring)
    : option (jsstring * option LineColumn) :=
  match error st with
  | Some (u :: m) => Some (u :: m, locationInfo (u :: m) inputText)
  | _ => None
  end.

(** Specification vocabulary: the number a string of digits denotes. *)
Definition decimal_value (digits : jsstring) : Z :=
  fold_left (fun acc u => acc * 10 + (Z.of_N u - 48)) digits 0.

(** [s] is empty or starts with a character that is no digit. *)
Definition no_leading_digit (s : jsstring) : Prop :=
  match s with
  | [] => True
  | u :: _ => is_digit u = false
  end.

(** The number of rendered [JsonNode] instances of a tree. *)
Fixpoint instance_count (x : instance) : nat :=
  match x with
  | Instance _ _ _ ch =>
      S (fold_right (fun y n => (instance_count y + n)%nat) O ch)
  end.

(** The number of items of a List, of properties of a Record. *)
Definition entries (v : value) : nat :=
  match v with
  | VArray items => List.length items
  | VObject props => List.length props
  | _ => O
  end.

(** Specification vocabulary: the sub-values of a value, read on the
    data alone. *)

(** The value of the first property of [props] named [key]. *)
Definition property_value (props : list (jsstring * value)) (key : jsstring)
    : option value :=
  option_map snd
    (find (fun kv => if list_eq_dec N.eq_dec (fst kv) key then true else false)
          props).

(** Child number [i] of a value: item [i] of a List; for a Record the
    value of the property whose name is at position [i] of
    [Object.keys]. *)
Definition child_value (v : value) (i : nat) : option value :=
  match v with
  | VArray items => nth_error items i
  | VObject props =>
      match nth_error (Object_keys v) i with
      | Some key => property_value props key
      | None => None
      end
  | _ => None
  end.

(** The sub-value found by following the child numbers [path]. *)
Fixpoint value_at (v : value) (path : list nat) : option value :=
  match path with
  | [] => Some v
  | i :: path' =>
      match child_value v i with
      | Some w => value_at w path'
      | None => None
      end
  end.

(** [w] is [v] itself, an item of a List in [v] or the value of a
    property of a Record in [v] (property names being distinct), at any
    depth. *)
Inductive subvalue : value -> value -> Prop :=
| subvalue_self : forall v, subvalue v v
| subvalue_item : forall items item w,
    In item items -> subvalue item w -> subvalue (VArray items) w
| subvalue_property : forall props key u w,
    NoDup (map fst props) -> In (key, u) props -> subvalue u w ->
    subvalue (VObject props) w.

(** A message with two occurrences of the literal, the first without a
    digit after it. *)
Definition message_two_positions : jsstring :=
  lit "no digits at position x; Bad token at position 12a".

(** A parser that always throws the same error, for sample runs. *)
Definition throwing_parser (message : jsstring) (_ : jsstring) : parse_outcome :=
  ThrowsError message.

(** The offset at which line number [k] (counted from 0) starts, given
    the lines: each earlier line and its newline. *)
Fixpoint line_offset (pieces : list jsstring) (k : nat) : Z :=
  match k, pieces with
  | S k', piece :: rest => length piece + 1 + line_offset rest k'
  | _, _ => 0
  end.
(* ================================================================== *)
(** * Properties *)

(** ** Strings and indices *)

Lemma length_nonneg (s : jsstring) : 0 <= length s.
Proof. unfold length, array_length. lia. Qed.

Lemma index_nth (s : jsstring) (i : Z) :
  0 <= i -> index s i = nth_error s (Z.to_nat i).
Proof.
  intros Hi. unfold index.
  destruct (i <? 0) eqn:E; [apply Z.ltb_lt in E; lia | reflexivity].
Qed.

Lemma index_in_range (s : jsstring) (i : Z) :
  0 <= i < length s -> exists u, index s i = Some u.
Proof.
  intros [H0 H1]. rewrite index_nth by assumption.
  destruct (nth_error s (Z.to_nat i)) as [u|] eqn:E; [now exists u|].
  apply nth_error_None in E. unfold length, array_length in H1. lia.
Qed.

Lemma index_out_of_range (s : jsstring) (i : Z) :
  length s <= i -> index s i = None.
Proof.
  intros H. pose proof (length_nonneg s).
  rewrite index_nth by lia. apply nth_error_None.
  unfold length, array_length in H. lia.
Qed.

Lemma firstn_succ_nth {A : Type} (l : list A) (k : nat) (x : A) :
  nth_error l k = Some x -> firstn (S k) l = firstn k l ++ [x].
Proof.
  revert k. induction l as [|a l IH]; intros [|k] H; simpl in *; try discriminate.
  - now inversion H.
  - f_equal. now apply IH.
Qed.

Lemma startsWith_spec (prefix s : jsstring) :
  startsWith s prefix = true <-> exists post, s = prefix ++ post.
Proof.
  revert s. induction prefix as [|p prefix IH]; intros s; simpl.
  - split; [intros _; now exists s | reflexivity].
  - destruct s as [|c s]; [split; [discriminate | now intros (post & H)]|].
    rewrite andb_true_iff, N.eqb_eq, IH. split.
    + intros (-> & post & ->). now exists post.
    + intros (post & [= -> ->]). split; [reflexivity | now exists post].
Qed.

(** [includes] is the substring test. *)
Lemma includes_spec (s sub : jsstring) :
  includes s sub = true <-> exists pre post, s = pre ++ sub ++ post.
Proof.
  induction s as [|c s IH]; simpl; rewrite orb_true_iff, startsWith_spec.
  - split.
    + intros [(post & H)|H]; [now exists [], post | discriminate].
    + intros ([|c pre] & post & H); [left; now exists post | discriminate].
  - rewrite IH. split.
    + intros [(post & H)|(pre & post & ->)]; [now exists [], post|].
      now exists (c :: pre), post.
    + intros ([|c' pre] & post & H); [left; now exists post|].
      right. injection H as _ ->. now exists pre, post.
Qed.

(** ** PositionMapper *)

Lemma newlines_before_succ (text : jsstring) (i : Z) :
  0 <= i < length text ->
  newlines_before text (i + 1) =
  newlines_before text i + (if is_char (index text i) LF then 1 else 0).
Proof.
  intros Hi. destruct (index_in_range text i Hi) as [u Hu].
  rewrite Hu. rewrite index_nth in Hu by lia.
  unfold newlines_before.
  replace (Z.to_nat (i + 1)) with (S (Z.to_nat i)) by lia.
  rewrite (firstn_succ_nth _ _ _ Hu), count_occ_app. simpl.
  destruct (N.eq_dec u LF) as [->|Hne].
  - rewrite N.eqb_refl, Nat2Z.inj_add. reflexivity.
  - apply N.eqb_neq in Hne. rewrite Hne, Nat2Z.inj_add. reflexivity.
Qed.

Lemma line_start_newline (text : jsstring) (i : Z) :
  0 <= i -> is_char (index text i) LF = true -> line_start text (i + 1) (i + 1).
Proof.
  intros Hi Hc. repeat split; try lia.
  - right. now replace (i + 1 - 1) with i by lia.
  - intros j Hj. lia.
Qed.

Lemma line_start_other (text : jsstring) (i ls : Z) :
  line_start text i ls -> is_char (index text i) LF = false ->
  line_start text (i + 1) ls.
Proof.
  intros (Hr & Hs & Hn) Hc. repeat split; try lia; try assumption.
  intros j Hj. destruct (Z.eq_dec j i) as [->|]; [assumption|].
  apply Hn. lia.
Qed.

(** The loop invariant: after the iterations up to [i], [line] counts the
    newlines before [i] and [lastLineStart] is the start of [i]'s line. *)
Lemma getLineAndColumn_loop_spec (text : jsstring) (position : Z) :
  position <= length text ->
  forall (n : nat) (i ln ls : Z),
    0 <= i -> Z.of_nat n = position - i ->
    ln = 1 + newlines_before text i ->
    line_start text i ls ->
    exists ls',
      getLineAndColumn_loop text position n i ln ls
      = (1 + newlines_before text position, ls')
      /\ line_start text position ls'.
Proof.
  intros Hlen. induction n as [|n IH]; intros i ln ls Hi Hn Hline Hls.
  - assert (i = position) by lia. subst. exists ls. now split.
  - simpl. destruct (i <? position) eqn:E; [|apply Z.ltb_ge in E; lia].
    pose proof (newlines_before_succ text i ltac:(lia)) as Hsucc.
    destruct (is_char (index text i) LF) eqn:Hc.
    + apply IH; try lia. now apply line_start_newline.
    + apply IH; try lia. now apply line_start_other.
Qed.

Lemma line_start_first_line (text : jsstring) (o ls : Z) :
  line_start text o ls -> no_newline_in text 0 o -> ls = 0.
Proof.
  intros (Hr & [H0|Hnl] & _) Hno; [assumption|].
  destruct (Z.eq_dec ls 0) as [|Hne]; [assumption|].
  rewrite Hno in Hnl by lia. discriminate.
Qed.

Lemma newlines_before_none (text : jsstring) (o : Z) :
  0 <= o <= length text -> no_newline_in text 0 o -> newlines_before text o = 0.
Proof.
  intros Ho. rewrite <- (Z2Nat.id o) in * by lia.
  induction (Z.to_nat o) as [|k IH]; intros Hno; [reflexivity|].
  rewrite Nat2Z.inj_succ in *. unfold Z.succ in *.
  rewrite newlines_before_succ by lia.
  rewrite (Hno (Z.of_nat k)) by lia. rewrite IH; [reflexivity | lia |].
  intros j Hj. apply Hno. lia.
Qed.

(** C2. For every text and every integer offset [o >= 0],
    [getLineAndColumn] returns [null] exactly when [o > text.length];
    otherwise the line is 1 plus the number of newlines at indices before
    [o] and the column is [o - ls + 1], [ls] being the index after the
    last newline before [o] (0 if none); both are at least 1, and the
    result is line 1, column [o + 1] when no newline precedes [o]. *)
Theorem getLineAndColumn_spec (text : jsstring) (o : Z) :
  0 <= o ->
  (getLineAndColumn text o = None <-> o > length text)
  /\ (o <= length text ->
      exists ls,
        line_start text o ls
        /\ getLineAndColumn text o
           = Some {| line := 1 + newlines_before text o; column := o - ls + 1 |}
        /\ 1 + newlines_before text o >= 1
        /\ o - ls + 1 >= 1
        /\ (no_newline_in text 0 o ->
            getLineAndColumn text o = Some {| line := 1; column := o + 1 |})).
Proof.
  intros Ho. unfold getLineAndColumn.
  destruct (o >? length text) eqn:E.
  - apply Z.gtb_lt in E. split; [split; [lia | reflexivity] | lia].
  - assert (Hle : o <= length text)
      by (destruct (Z.gtb_spec o (length text)); [discriminate | lia]).
    destruct (getLineAndColumn_loop_spec text o Hle (Z.to_nat o) 0 1 0)
      as (ls & Hloop & Hls); try lia.
    + reflexivity.
    + repeat split; try lia. intros j Hj; lia.
    + rewrite Hloop. split; [split; [discriminate | lia] |].
      intros _. exists ls. pose proof Hls as (Hr & _ & _).
      split; [exact Hls|]. split; [reflexivity|].
      split; [unfold newlines_before; lia|]. split; [lia|].
      intros Hno. rewrite (line_start_first_line _ _ _ Hls Hno).
      rewrite (newlines_before_none text o) by (auto; lia).
      do 2 f_equal. lia.
Qed.

Lemma getLineAndColumn_spec_witness :
  0 <= 4
  /\ (getLineAndColumn text_two_lines 4 = None <-> 4 > length text_two_lines)
  /\ (4 <= length text_two_lines ->
      exists ls,
        line_start text_two_lines 4 ls
        /\ getLineAndColumn text_two_lines 4
           = Some {| line := 1 + newlines_before text_two_lines 4;
                     column := 4 - ls + 1 |}
        /\ 1 + newlines_before text_two_lines 4 >= 1
        /\ 4 - ls + 1 >= 1
        /\ (no_newline_in text_two_lines 0 4 ->
            getLineAndColumn text_two_lines 4
            = Some {| line := 1; column := 4 + 1 |})).
Proof.
  assert (H : 0 <= 4) by lia.
  split; [exact H | exact (getLineAndColumn_spec text_two_lines 4 H)].
Defined.

(** ** ErrorRangeResolver: the position in the message *)

Lemma strip_prefix_Some (prefix s rest : jsstring) :
  strip_prefix s prefix = Some rest <-> s = prefix ++ rest.
Proof.
  revert s. induction prefix as [|p prefix IH]; intros s; simpl.
  - split; [now intros [= ->] | now intros ->].
  - destruct s as [|c s]; [split; discriminate|].
    destruct (N.eqb_spec c p) as [->|Hne].
    + rewrite IH. split; [now intros -> | now intros [= ->]].
    + split; [discriminate | intros [= -> _]; contradiction].
Qed.

Lemma span_digits_digits (s : jsstring) :
  Forall (fun u => is_digit u = true) (fst (span_digits s)).
Proof.
  induction s as [|u s IH]; simpl; [constructor|].
  destruct (is_digit u) eqn:E; [|constructor].
  destruct (span_digits s) as [ds rest]. simpl in *. now constructor.
Qed.

Lemma span_digits_nil (s : jsstring) :
  fst (span_digits s) = [] <->
  match s with [] => True | u :: _ => is_digit u = false end.
Proof.
  destruct s as [|u s]; simpl; [tauto|].
  destruct (is_digit u); [|tauto].
  destruct (span_digits s). simpl. split; discriminate.
Qed.

Lemma parseInt10_nonneg (s : jsstring) : 0 <= parseInt10 s.
Proof.
  unfold parseInt10. pose proof (span_digits_digits s) as H.
  assert (G : forall l acc, Forall (fun u => is_digit u = true) l -> 0 <= acc ->
              0 <= fold_left (fun acc u => acc * 10 + (Z.of_N u - 48)) l acc).
  { induction l as [|u l IH]; intros acc Hl Hacc; simpl; [assumption|].
    inversion Hl as [|? ? Hu Hl']; subst. apply IH; [assumption|].
    unfold is_digit in Hu. apply andb_true_iff in Hu as [Hu _].
    apply N.leb_le in Hu. lia. }
  now apply G.
Qed.

(** A match at the head of [s]: the literal, then a digit. *)
Lemma match_here_None (s : jsstring) :
  match_here s = None <->
  ~ exists d post, s = AT_POSITION ++ d :: post /\ is_digit d = true.
Proof.
  unfold match_here.
  destruct (strip_prefix s AT_POSITION) as [rest|] eqn:E.
  - apply strip_prefix_Some in E. subst s.
    pose proof (span_digits_nil rest) as Hnil.
    destruct (fst (span_digits rest)) as [|u ds].
    + split; [|reflexivity]. intros _ (d & post & Heq & Hd).
      apply app_inv_head in Heq. subst rest.
      destruct Hnil as [Hnil _]. specialize (Hnil eq_refl). simpl in Hnil.
      congruence.
    + split; [discriminate|]. intros Hno. exfalso. apply Hno.
      destruct rest as [|d post].
      * destruct Hnil as [_ Hnil]. now specialize (Hnil I).
      * exists d, post. split; [reflexivity|].
        destruct (is_digit d) eqn:Hd; [reflexivity|].
        destruct Hnil as [_ Hnil]. now specialize (Hnil eq_refl).
  - split; [|reflexivity]. intros _ (d & post & Heq & _).
    assert (H : strip_prefix s AT_POSITION = Some (d :: post))
      by now apply strip_prefix_Some.
    congruence.
Qed.

Lemma match_here_Some (s group1 : jsstring) :
  match_here s = Some group1 -> group1 <> [].
Proof.
  unfold match_here.
  destruct (strip_prefix s AT_POSITION) as [rest|]; [|discriminate].
  destruct (fst (span_digits rest)); [discriminate|]. now intros [= <-].
Qed.

Lemma has_position_pattern_cons (c : code_unit) (s : jsstring) :
  has_position_pattern (c :: s) <->
  (exists d post, c :: s = AT_POSITION ++ d :: post /\ is_digit d = true)
  \/ has_position_pattern s.
Proof.
  split.
  - intros ([|c' pre] & d & post & Heq & Hd).
    + left. now exists d, post.
    + right. simpl in Heq. injection Heq as _ Heq. now exists pre, d, post.
  - intros [(d & post & Heq & Hd) | (pre & d & post & Heq & Hd)].
    + now exists [], d, post.
    + exists (c :: pre), d, post. split; [now rewrite Heq | assumption].
Qed.

Lemma match_position_None (errorMessage : jsstring) :
  match_position errorMessage = None <-> ~ has_position_pattern errorMessage.
Proof.
  induction errorMessage as [|c s IH].
  - split; [|reflexivity]. intros _ (pre & d & post & Heq & _).
    destruct pre; discriminate.
  - rewrite has_position_pattern_cons. simpl match_position.
    pose proof (match_here_None (c :: s)) as Hh.
    destruct (match_here (c :: s)) as [g|].
    + split; [discriminate|]. intros Hno. exfalso.
      destruct Hh as [_ Hh]. assert (Some g = None) by (apply Hh; tauto).
      discriminate.
    + rewrite IH. destruct Hh as [Hh _]. specialize (Hh eq_refl). tauto.
Qed.

Lemma match_position_Some (errorMessage group1 : jsstring) :
  match_position errorMessage = Some group1 -> group1 <> [].
Proof.
  induction errorMessage as [|c s IH]; simpl.
  - discriminate.
  - destruct (match_here (c :: s)) as [g|] eqn:E; [|exact IH].
    intros [= <-]. now apply match_here_Some in E.
Qed.

(** A position is extracted exactly from the messages that hold the
    pattern. *)
Lemma extract_position_None (errorMessage : jsstring) :
  extract_position errorMessage = None <-> ~ has_position_pattern errorMessage.
Proof.
  rewrite <- match_position_None. unfold extract_position.
  destruct (match_position errorMessage) as [[|u g]|] eqn:E.
  - now apply match_position_Some in E.
  - split; discriminate.
  - tauto.
Qed.

Lemma extract_position_nonneg (errorMessage : jsstring) (p : Z) :
  extract_position errorMessage = Some p -> 0 <= p.
Proof.
  unfold extract_position.
  destruct (match_position errorMessage) as [[|u g]|]; try discriminate.
  intros [= <-]. apply parseInt10_nonneg.
Qed.

(** ** ErrorRangeResolver: the two expansion loops *)

(** The leftward loop stops where its condition fails: at index 0 or
    just after a delimiter, having crossed no delimiter. *)
Lemma start_loop_spec (text : jsstring) :
  forall (n : nat) (p : Z),
    0 <= p <= Z.of_nat n ->
    0 <= start_loop text n p <= p
    /\ no_delimiter_in text (start_loop text n p) p
    /\ (start_loop text n p = 0
        \/ delimiters_test (index text (start_loop text n p - 1)) = true).
Proof.
  induction n as [|n IH]; intros p Hp; simpl.
  - assert (p = 0) by lia. subst.
    split; [lia|]. split; [intros i Hi; lia | now left].
  - destruct (p >? 0) eqn:Hpos; simpl.
    + destruct (delimiters_test (index text (p - 1))) eqn:Hd; simpl.
      * split; [lia|]. split; [intros i Hi; lia | now right].
      * destruct (IH (p - 1)) as (Hr & Hno & Hstop); [lia|].
        split; [lia|]. split; [|exact Hstop].
        intros i Hi. destruct (Z.eq_dec i (p - 1)) as [->|]; [exact Hd|].
        apply Hno. lia.
    + assert (p = 0) by (destruct (Z.gtb_spec p 0); [discriminate | lia]).
      subst. split; [lia|]. split; [intros i Hi; lia | now left].
Qed.

(** The rightward loop stops at the end of the text or on a delimiter. *)
Lemma end_loop_spec (text : jsstring) :
  forall (n : nat) (p : Z),
    0 <= p -> length text - p <= Z.of_nat n ->
    p <= end_loop text n p
    /\ (p <= length text -> end_loop text n p <= length text)
    /\ no_delimiter_in text p (end_loop text n p)
    /\ (length text <= end_loop text n p
        \/ delimiters_test (index text (end_loop text n p)) = true).
Proof.
  induction n as [|n IH]; intros p Hp Hn; simpl.
  - split; [lia|]. split; [lia|]. split; [intros i Hi; lia | left; lia].
  - destruct (p <? length text) eqn:Hlt; simpl.
    + apply Z.ltb_lt in Hlt.
      destruct (delimiters_test (index text p)) eqn:Hd; simpl.
      * split; [lia|]. split; [lia|]. split; [intros i Hi; lia | now right].
      * destruct (IH (p + 1)) as (Hr & Hle & Hno & Hstop); [lia | lia |].
        split; [lia|]. split; [lia|]. split; [|exact Hstop].
        intros i Hi. destruct (Z.eq_dec i p) as [->|]; [exact Hd|].
        apply Hno. lia.
    + apply Z.ltb_ge in Hlt.
      split; [lia|]. split; [lia|]. split; [intros i Hi; lia | left; lia].
Qed.

Lemma lastIndexOf_from_range (s : jsstring) (c : code_unit) :
  forall i, 0 <= i ->
    lastIndexOf_from s c i = -1
    \/ i <= lastIndexOf_from s c i < i + length s.
Proof.
  induction s as [|u s IH]; intros i Hi; simpl; [now left|].
  assert (Hlen : length (u :: s) = length s + 1)
    by (unfold length, array_length; simpl List.length; lia).
  destruct (IH (i + 1) ltac:(lia)) as [H|H].
  - rewrite H. simpl. destruct (N.eqb u c); [right | left; reflexivity].
    pose proof (length_nonneg s). lia.
  - destruct (lastIndexOf_from s c (i + 1) >? -1) eqn:E.
    + right. lia.
    + destruct (Z.gtb_spec (lastIndexOf_from s c (i + 1)) (-1)); [discriminate | lia].
Qed.

Lemma lastIndexOf_range (s : jsstring) (c : code_unit) :
  -1 <= lastIndexOf s c < length s \/ (s = [] /\ lastIndexOf s c = -1).
Proof.
  unfold lastIndexOf. destruct s as [|u s]; [right; now split|]. left.
  assert (0 < length (u :: s))
    by (unfold length, array_length; simpl List.length; lia).
  destruct (lastIndexOf_from_range (u :: s) c 0 ltac:(lia)); lia.
Qed.

(** The shape of [calculateErrorRange] once a position in range has been
    extracted and the message is not the unexpected-end one. *)
Lemma calculateErrorRange_position (text errorMessage : jsstring) (p : Z) :
  extract_position errorMessage = Some p ->
  0 <= p <= length text ->
  calculateErrorRange text errorMessage =
    if includes errorMessage UNEXPECTED_END then
      Some {| start := if lastIndexOf text LF >? -1
                       then lastIndexOf text LF + 1 else 0;
              end_ := length text |}
    else if (p <? length text) && delimiters_test (index text p) then
      Some {| start := p; end_ := p + 1 |}
    else
      if (start_loop text (Z.to_nat p) p
          =? end_loop text (Z.to_nat (length text - p)) p)
         && (end_loop text (Z.to_nat (length text - p)) p <? length text)
      then Some {| start := p; end_ := p + 1 |}
      else Some {| start := start_loop text (Z.to_nat p) p;
                   end_ := end_loop text (Z.to_nat (length text - p)) p |}.
Proof.
  intros He Hp. unfold calculateErrorRange. rewrite He.
  destruct (p <? 0) eqn:E1; [apply Z.ltb_lt in E1; lia|].
  destruct (p >? length text) eqn:E2; [apply Z.gtb_lt in E2; lia|].
  reflexivity.
Qed.

(** In the expansion phase the two loops never meet before the end of
    the text. *)
Lemma expansion_not_degenerate (text : jsstring) (p : Z) :
  0 <= p <= length text ->
  (p <? length text) && delimiters_test (index text p) = false ->
  (start_loop text (Z.to_nat p) p
   =? end_loop text (Z.to_nat (length text - p)) p)
  && (end_loop text (Z.to_nat (length text - p)) p <? length text) = false.
Proof.
  intros Hp Hnd.
  destruct (start_loop_spec text (Z.to_nat p) p ltac:(lia)) as (Hs & _ & _).
  destruct (end_loop_spec text (Z.to_nat (length text - p)) p
              ltac:(lia) ltac:(lia)) as (He & Hle & _ & Hstop).
  apply andb_false_iff.
  destruct (Z.ltb_spec (end_loop text (Z.to_nat (length text - p)) p)
                       (length text)) as [Hlt|]; [left | now right].
  apply Z.eqb_neq. intros Heq.
  assert (Hpe : end_loop text (Z.to_nat (length text - p)) p = p) by lia.
  rewrite Hpe in *. destruct Hstop as [|Hd]; [lia|].
  rewrite Hd in Hnd. apply andb_false_iff in Hnd as [Hnd|]; [|discriminate].
  apply Z.ltb_ge in Hnd. lia.
Qed.

(** ** ErrorRangeResolver: [calculateErrorRange] *)

Lemma calculateErrorRange_well_formed (text errorMessage : jsstring) (r : Range) :
  calculateErrorRange text errorMessage = Some r ->
  0 <= start r <= end_ r /\ end_ r <= length text.
Proof.
  unfold calculateErrorRange.
  destruct (extract_position errorMessage) as [p|] eqn:He; [|discriminate].
  pose proof (extract_position_nonneg _ _ He) as Hp0.
  destruct (p <? 0) eqn:E1; [apply Z.ltb_lt in E1; lia|].
  destruct (p >? length text) eqn:E2; [discriminate|].
  assert (Hp : p <= length text)
    by (destruct (Z.gtb_spec p (length text)); [discriminate | lia]).
  simpl orb. cbv iota.
  destruct (includes errorMessage UNEXPECTED_END).
  { intros [= <-]. simpl.
    destruct (lastIndexOf_range text LF) as [H|[-> H]].
    - destruct (Z.gtb_spec (lastIndexOf text LF) (-1)); lia.
    - rewrite H. simpl. unfold length, array_length. simpl. lia. }
  destruct ((p <? length text) && delimiters_test (index text p)) eqn:Hd.
  { apply andb_true_iff in Hd as [Hlt _]. apply Z.ltb_lt in Hlt.
    intros [= <-]. simpl. lia. }
  rewrite (expansion_not_degenerate text p) by (auto; lia).
  destruct (start_loop_spec text (Z.to_nat p) p ltac:(lia)) as (Hs & _ & _).
  destruct (end_loop_spec text (Z.to_nat (length text - p)) p
              ltac:(lia) ltac:(lia)) as (Hge & Hle & _ & _).
  intros [= <-]. simpl. lia.
Qed.

(** C1, as the code has it. [calculateErrorRange] returns [null] exactly
    when the message holds no "at position <digits>" or the position it
    holds is greater than [text.length]; every span it returns satisfies
    [0 <= start <= end <= text.length]. *)
Theorem calculateErrorRange_absent_iff (text errorMessage : jsstring) :
  (calculateErrorRange text errorMessage = None <->
     ~ has_position_pattern errorMessage
     \/ exists p, extract_position errorMessage = Some p /\ p > length text)
  /\ (forall r, calculateErrorRange text errorMessage = Some r ->
                0 <= start r <= end_ r /\ end_ r <= length text).
Proof.
  split; [|intros r; apply calculateErrorRange_well_formed].
  pose proof (extract_position_None errorMessage) as Hnone.
  destruct (extract_position errorMessage) as [p|] eqn:He.
  - pose proof (extract_position_nonneg _ _ He) as Hp0.
    destruct (Z.gtb_spec p (length text)) as [Hgt|Hle].
    + split.
      * intros _. right. exists p. split; [reflexivity | lia].
      * intros _. unfold calculateErrorRange. rewrite He.
        destruct (Z.gtb_spec p (length text)) as [|]; [|lia].
        now rewrite orb_true_r.
    + split.
      * rewrite (calculateErrorRange_position text errorMessage p He) by lia.
        repeat match goal with |- context [if ?c then _ else _] => destruct c end;
          discriminate.
      * intros [Hno | (p' & [= <-] & Hgt)]; [|lia].
        destruct Hnone as [_ Hnone]. specialize (Hnone Hno). discriminate.
  - split.
    + intros _. left. now apply Hnone.
    + intros _. unfold calculateErrorRange. now rewrite He.
Qed.

(** C1 as stated fails: a position is extracted, and the result is
    [null] because the position lies beyond the text. *)
Lemma calculateErrorRange_absent_counterexample :
  calculateErrorRange (lit "") (lit "failure at position 5") = None
  /\ extract_position (lit "failure at position 5") = Some 5
  /\ has_position_pattern (lit "failure at position 5").
Proof.
  split; [reflexivity|]. split; [reflexivity|].
  exists (lit "failure "), 53%N, []. split; reflexivity.
Qed.

(** C3, as the code has it. For the five code units [{dq a dq :] and a
    message with the unexpected-end phrase, a position above 5 (6 among
    them) gives [null]; a position up to 5 gives the span from 0 to 5. *)
Theorem calculateErrorRange_unexpected_end (errorMessage : jsstring) (p : Z) :
  includes errorMessage UNEXPECTED_END = true ->
  extract_position errorMessage = Some p ->
  calculateErrorRange text_a_open errorMessage =
    if p >? 5 then None else Some {| start := 0; end_ := 5 |}.
Proof.
  intros Hinc He. pose proof (extract_position_nonneg _ _ He) as Hp0.
  destruct (Z.gtb_spec p 5) as [Hgt|Hle].
  - unfold calculateErrorRange. rewrite He.
    change (length text_a_open) with 5.
    destruct (Z.gtb_spec p 5); [|lia]. now rewrite orb_true_r.
  - rewrite (calculateErrorRange_position text_a_open errorMessage p He)
      by (change (length text_a_open) with 5; lia).
    rewrite Hinc. reflexivity.
Qed.

Lemma calculateErrorRange_unexpected_end_witness :
  calculateErrorRange text_a_open (lit "Unexpected end of JSON input at position 6")
  = None
  /\ calculateErrorRange text_a_open (lit "Unexpected end of JSON input at position 5")
     = Some {| start := 0; end_ := 5 |}.
Proof.
  split.
  - exact (calculateErrorRange_unexpected_end
             (lit "Unexpected end of JSON input at position 6") 6
             eq_refl eq_refl).
  - exact (calculateErrorRange_unexpected_end
             (lit "Unexpected end of JSON input at position 5") 5
             eq_refl eq_refl).
Defined.

(** C3 as stated fails: the text has length 5, so position 6 is out of
    range and the result is [null], not the span from 0 to 6. *)
Lemma calculateErrorRange_unexpected_end_counterexample :
  length text_a_open = 5
  /\ includes (lit "Unexpected end of JSON input at position 6") UNEXPECTED_END = true
  /\ extract_position (lit "Unexpected end of JSON input at position 6") = Some 6
  /\ calculateErrorRange text_a_open (lit "Unexpected end of JSON input at position 6")
     = None
  /\ calculateErrorRange text_a_open (lit "Unexpected end of JSON input at position 6")
     <> Some {| start := 0; end_ := 6 |}.
Proof.
  repeat split; try reflexivity. discriminate.
Qed.

(** The expansion phase returns the two loop results. *)
Lemma calculateErrorRange_expansion (text errorMessage : jsstring) (p : Z) :
  extract_position errorMessage = Some p ->
  p <= length text ->
  includes errorMessage UNEXPECTED_END = false ->
  (p <? length text) && delimiters_test (index text p) = false ->
  calculateErrorRange text errorMessage =
    Some {| start := start_loop text (Z.to_nat p) p;
            end_ := end_loop text (Z.to_nat (length text - p)) p |}.
Proof.
  intros He Hp Hinc Hnd. pose proof (extract_position_nonneg _ _ He) as Hp0.
  rewrite (calculateErrorRange_position text errorMessage p He) by lia.
  rewrite Hinc, Hnd. now rewrite expansion_not_degenerate by (auto; lia).
Qed.

(** C4. When a position [p] in range is extracted, the message is not
    the unexpected-end one and [text[p]] (if any) is no delimiter, the
    span is the maximal run of non-delimiters around [p]: [start] is the
    least index with no delimiter in [start .. p-1], [end] the greatest
    index up to [text.length] with no delimiter in [p .. end-1].  For
    the text [{dq a dq : bad}] and position 6 the span is 6 to 9. *)
Theorem calculateErrorRange_token_run :
  (forall (text errorMessage : jsstring) (p : Z),
      extract_position errorMessage = Some p ->
      p <= length text ->
      includes errorMessage UNEXPECTED_END = false ->
      (p < length text -> delimiters_test (index text p) = false) ->
      exists s e,
        calculateErrorRange text errorMessage = Some {| start := s; end_ := e |}
        /\ 0 <= s <= p /\ p <= e <= length text
        /\ no_delimiter_in text s p
        /\ (forall s', 0 <= s' <= p -> no_delimiter_in text s' p -> s <= s')
        /\ no_delimiter_in text p e
        /\ (forall e', p <= e' <= length text ->
                       no_delimiter_in text p e' -> e' <= e))
  /\ (forall errorMessage : jsstring,
         extract_position errorMessage = Some 6 ->
         includes errorMessage UNEXPECTED_END = false ->
         calculateErrorRange text_a_bad errorMessage
         = Some {| start := 6; end_ := 9 |}).
Proof.
  split.
  - intros text errorMessage p He Hp Hinc Hnd.
    pose proof (extract_position_nonneg _ _ He) as Hp0.
    assert (Hnd' : (p <? length text) && delimiters_test (index text p) = false).
    { destruct (Z.ltb_spec p (length text)); [|reflexivity].
      simpl. now apply Hnd. }
    destruct (start_loop_spec text (Z.to_nat p) p ltac:(lia))
      as (Hs & Hsno & Hsstop).
    destruct (end_loop_spec text (Z.to_nat (length text - p)) p
                ltac:(lia) ltac:(lia)) as (Hge & Hle & Heno & Hestop).
    exists (start_loop text (Z.to_nat p) p),
           (end_loop text (Z.to_nat (length text - p)) p).
    split; [now apply calculateErrorRange_expansion|].
    split; [lia|]. split; [lia|]. split; [exact Hsno|].
    split; [|split; [exact Heno|]].
    + intros s' Hs' Hno'.
      destruct (Z.le_gt_cases (start_loop text (Z.to_nat p) p) s') as [|Hlt];
        [assumption|].
      destruct Hsstop as [H0|Hd]; [lia|].
      rewrite Hno' in Hd by lia. discriminate.
    + intros e' He' Hno'.
      destruct (Z.le_gt_cases e' (end_loop text (Z.to_nat (length text - p)) p))
        as [|Hlt]; [assumption|].
      destruct Hestop as [Hend|Hd]; [lia|].
      rewrite Hno' in Hd by lia. discriminate.
  - intros errorMessage He Hinc.
    now rewrite (calculateErrorRange_expansion text_a_bad errorMessage 6 He).
Qed.

Lemma calculateErrorRange_token_run_witness :
  calculateErrorRange text_a_bad (lit "Unexpected token b in JSON at position 6")
  = Some {| start := 6; end_ := 9 |}
  /\ exists s e,
      calculateErrorRange text_a_bad (lit "Unexpected token b in JSON at position 6")
      = Some {| start := s; end_ := e |}
      /\ 0 <= s <= 6 /\ 6 <= e <= length text_a_bad
      /\ no_delimiter_in text_a_bad s 6
      /\ (forall s', 0 <= s' <= 6 -> no_delimiter_in text_a_bad s' 6 -> s <= s')
      /\ no_delimiter_in text_a_bad 6 e
      /\ (forall e', 6 <= e' <= length text_a_bad ->
                     no_delimiter_in text_a_bad 6 e' -> e' <= e).
Proof.
  split.
  - exact (proj2 calculateErrorRange_token_run
             (lit "Unexpected token b in JSON at position 6") eq_refl eq_refl).
  - apply (proj1 calculateErrorRange_token_run text_a_bad
             (lit "Unexpected token b in JSON at position 6") 6).
    + reflexivity.
    + vm_compute. discriminate.
    + reflexivity.
    + intros _. reflexivity.
Defined.

(** The delimiter class, character by character. *)
Lemma is_delimiter_chars (u : code_unit) :
  is_delimiter u = true <->
  is_space u = true \/ In u (lit "{}[](),:" ++ [DQUOTE]).
Proof.
  unfold is_delimiter. rewrite !orb_true_iff, !N.eqb_eq. simpl In.
  unfold DQUOTE. intuition congruence.
Qed.

(** C5. When a position [p < text.length] is extracted, the message is
    not the unexpected-end one and [text[p]] is whitespace or one of
    the braces, brackets, parentheses, comma, colon or double quote, the
    span is that single character.  For the text [{dq a dq :1}] and the
    message "Unexpected token , in JSON at position 0" it is 0 to 1. *)
Theorem calculateErrorRange_delimiter :
  (forall (text errorMessage : jsstring) (p : Z) (u : code_unit),
      extract_position errorMessage = Some p ->
      p < length text ->
      includes errorMessage UNEXPECTED_END = false ->
      index text p = Some u ->
      is_space u = true \/ In u (lit "{}[](),:" ++ [DQUOTE]) ->
      calculateErrorRange text errorMessage
      = Some {| start := p; end_ := p + 1 |})
  /\ calculateErrorRange text_a1 (lit "Unexpected token , in JSON at position 0")
     = Some {| start := 0; end_ := 1 |}.
Proof.
  split; [|reflexivity].
  intros text errorMessage p u He Hp Hinc Hu Hdelim.
  pose proof (extract_position_nonneg _ _ He) as Hp0.
  rewrite (calculateErrorRange_position text errorMessage p He) by lia.
  rewrite Hinc, Hu. simpl delimiters_test.
  apply is_delimiter_chars in Hdelim. rewrite Hdelim.
  destruct (Z.ltb_spec p (length text)); [reflexivity | lia].
Qed.

Lemma calculateErrorRange_delimiter_witness :
  calculateErrorRange text_a_bad (lit "Unexpected token } in JSON at position 9")
  = Some {| start := 9; end_ := 9 + 1 |}.
Proof.
  apply (proj1 calculateErrorRange_delimiter text_a_bad
           (lit "Unexpected token } in JSON at position 9") 9 125%N).
  - reflexivity.
  - vm_compute. reflexivity.
  - reflexivity.
  - reflexivity.
  - right. vm_compute. tauto.
Defined.

(** C9. In the expansion phase (a position [p] with [0 <= p <=
    text.length] extracted, not the unexpected-end message, the
    single-delimiter branch not taken) the loops never end with
    [start = end] and [end < text.length]: the fallback branch is not
    taken, the loop results are returned, and [start = end] only at
    [text.length]. *)
Theorem expansion_fallback_unreachable (text errorMessage : jsstring) (p : Z) :
  extract_position errorMessage = Some p ->
  0 <= p <= length text ->
  includes errorMessage UNEXPECTED_END = false ->
  (p <? length text) && delimiters_test (index text p) = false ->
  ~ (start_loop text (Z.to_nat p) p
     = end_loop text (Z.to_nat (length text - p)) p
     /\ end_loop text (Z.to_nat (length text - p)) p < length text)
  /\ (start_loop text (Z.to_nat p) p
      = end_loop text (Z.to_nat (length text - p)) p ->
      start_loop text (Z.to_nat p) p = length text
      /\ end_loop text (Z.to_nat (length text - p)) p = length text)
  /\ calculateErrorRange text errorMessage
     = Some {| start := start_loop text (Z.to_nat p) p;
               end_ := end_loop text (Z.to_nat (length text - p)) p |}.
Proof.
  intros He Hp Hinc Hnd.
  pose proof (expansion_not_degenerate text p Hp Hnd) as Hdeg.
  destruct (end_loop_spec text (Z.to_nat (length text - p)) p
              ltac:(lia) ltac:(lia)) as (_ & Hle & _ & _).
  assert (Hnot : ~ (start_loop text (Z.to_nat p) p
                    = end_loop text (Z.to_nat (length text - p)) p
                    /\ end_loop text (Z.to_nat (length text - p)) p < length text)).
  { intros [Heq Hlt]. apply andb_false_iff in Hdeg as [Hdeg|Hdeg].
    - apply Z.eqb_neq in Hdeg. contradiction.
    - apply Z.ltb_ge in Hdeg. lia. }
  split; [exact Hnot|]. split.
  - intros Heq.
    assert (end_loop text (Z.to_nat (length text - p)) p = length text).
    { destruct (Z.lt_ge_cases (end_loop text (Z.to_nat (length text - p)) p)
                              (length text)) as [Hlt|]; [|lia].
      exfalso. apply Hnot. now split. }
    split; congruence.
  - apply calculateErrorRange_expansion; tauto || lia.
Qed.

Lemma expansion_fallback_unreachable_witness :
  ~ (start_loop text_a_bad (Z.to_nat 7) 7
     = end_loop text_a_bad (Z.to_nat (length text_a_bad - 7)) 7
     /\ end_loop text_a_bad (Z.to_nat (length text_a_bad - 7)) 7
        < length text_a_bad)
  /\ (start_loop text_a_bad (Z.to_nat 7) 7
      = end_loop text_a_bad (Z.to_nat (length text_a_bad - 7)) 7 ->
      start_loop text_a_bad (Z.to_nat 7) 7 = length text_a_bad
      /\ end_loop text_a_bad (Z.to_nat (length text_a_bad - 7)) 7
         = length text_a_bad)
  /\ calculateErrorRange text_a_bad (lit "Unexpected token a in JSON at position 7")
     = Some {| start := start_loop text_a_bad (Z.to_nat 7) 7;
               end_ := end_loop text_a_bad (Z.to_nat (length text_a_bad - 7)) 7 |}.
Proof.
  apply (expansion_fallback_unreachable text_a_bad
           (lit "Unexpected token a in JSON at position 7") 7).
  - reflexivity.
  - vm_compute. split; discriminate.
  - reflexivity.
  - reflexivity.
Defined.

(** C10, as the code has it. There are a text and a message (the text
    [a,] with position 2) for which the span is empty; whenever the extracted position is
    [text.length], the message is not the unexpected-end one and the
    last character of the text is a delimiter, the result is the empty
    span at [text.length]. *)
Theorem calculateErrorRange_empty_span :
  (forall errorMessage : jsstring,
      extract_position errorMessage = Some 2 ->
      includes errorMessage UNEXPECTED_END = false ->
      calculateErrorRange (lit "a,") errorMessage
      = Some {| start := 2; end_ := 2 |})
  /\ (forall text errorMessage : jsstring,
         extract_position errorMessage = Some (length text) ->
         includes errorMessage UNEXPECTED_END = false ->
         delimiters_test (index text (length text - 1)) = true ->
         calculateErrorRange text errorMessage
         = Some {| start := length text; end_ := length text |}).
Proof.
  assert (G : forall text errorMessage : jsstring,
             extract_position errorMessage = Some (length text) ->
             includes errorMessage UNEXPECTED_END = false ->
             delimiters_test (index text (length text - 1)) = true ->
             calculateErrorRange text errorMessage
             = Some {| start := length text; end_ := length text |}).
  { intros text errorMessage He Hinc Hlast.
    pose proof (length_nonneg text) as Hlen.
    rewrite (calculateErrorRange_expansion text errorMessage (length text) He);
      [| lia | assumption | now rewrite Z.ltb_irrefl].
    rewrite Z.sub_diag. simpl end_loop.
    destruct (Z.to_nat (length text)) as [|n] eqn:En; [reflexivity|].
    simpl start_loop. rewrite Hlast.
    now rewrite andb_false_r. }
  split; [|exact G].
  intros errorMessage He Hinc. exact (G (lit "a,") errorMessage He Hinc eq_refl).
Qed.

Lemma calculateErrorRange_empty_span_witness :
  calculateErrorRange (lit "a,") (lit "Unexpected end of data at position 2")
  = Some {| start := 2; end_ := 2 |}
  /\ calculateErrorRange (lit "[1, ") (lit "Unexpected end of data at position 4")
     = Some {| start := length (lit "[1, "); end_ := length (lit "[1, ") |}.
Proof.
  split.
  - exact (proj1 calculateErrorRange_empty_span
             (lit "Unexpected end of data at position 2") eq_refl eq_refl).
  - exact (proj2 calculateErrorRange_empty_span (lit "[1, ")
             (lit "Unexpected end of data at position 4")
             eq_refl eq_refl eq_refl).
Defined.

(** C10 as stated fails when the message is the unexpected-end one: the
    position is [text.length] and the last character a delimiter, and
    the span is the whole last line, not empty. *)
Lemma calculateErrorRange_empty_span_counterexample :
  extract_position (lit "Unexpected end of JSON input at position 5")
  = Some (length text_a_open)
  /\ delimiters_test (index text_a_open (length text_a_open - 1)) = true
  /\ calculateErrorRange text_a_open
       (lit "Unexpected end of JSON input at position 5")
     = Some {| start := 0; end_ := 5 |}
  /\ calculateErrorRange text_a_open
       (lit "Unexpected end of JSON input at position 5")
     <> Some {| start := length text_a_open; end_ := length text_a_open |}.
Proof.
  repeat (split; [reflexivity|]). discriminate.
Qed.

(** ** TreeRenderer: [Object.keys] *)

Lemma insert_index_perm (k : N * jsstring) (l : list (N * jsstring)) :
  Permutation (insert_index k l) (k :: l).
Proof.
  induction l as [|h t IH]; simpl; [reflexivity|].
  destruct (fst k <=? fst h)%N; [reflexivity|].
  rewrite IH. apply perm_swap.
Qed.

Lemma sort_indices_perm (l : list (N * jsstring)) :
  Permutation (sort_indices l) l.
Proof.
  induction l as [|k l IH]; simpl; [reflexivity|].
  rewrite insert_index_perm. now constructor.
Qed.

Lemma insert_index_sorted (k : N * jsstring) (l : list (N * jsstring)) :
  StronglySorted (fun a b => (fst a <= fst b)%N) l ->
  StronglySorted (fun a b => (fst a <= fst b)%N) (insert_index k l).
Proof.
  induction l as [|h t IH]; intros Hs; simpl.
  - constructor; [constructor | constructor].
  - inversion Hs as [|? ? Ht Hh]; subst.
    destruct (N.leb_spec (fst k) (fst h)) as [Hle|Hgt].
    + constructor; [assumption|]. constructor; [assumption|].
      eapply Forall_impl; [|exact Hh]. intros a Ha. simpl in *. lia.
    + constructor; [now apply IH|].
      eapply Permutation_Forall; [symmetry; apply insert_index_perm|].
      constructor; [lia | assumption].
Qed.

Lemma sort_indices_sorted (l : list (N * jsstring)) :
  StronglySorted (fun a b => (fst a <= fst b)%N) (sort_indices l).
Proof.
  induction l as [|k l IH]; simpl; [constructor|].
  now apply insert_index_sorted.
Qed.

Lemma index_keys_snd (names : list jsstring) :
  map snd (index_keys names) = filter is_array_index names.
Proof.
  induction names as [|k names IH]; simpl; [reflexivity|].
  unfold is_array_index at 1. destruct (array_index k); simpl; now rewrite IH.
Qed.

Lemma index_keys_index (names : list jsstring) :
  Forall (fun nk => array_index (snd nk) = Some (fst nk)) (index_keys names).
Proof.
  induction names as [|k names IH]; simpl; [constructor|].
  destruct (array_index k) eqn:E; simpl; [constructor|]; assumption.
Qed.

Lemma filter_partition_perm {A : Type} (f : A -> bool) (l : list A) :
  Permutation (filter f l ++ filter (fun x => negb (f x)) l) l.
Proof.
  induction l as [|x l IH]; simpl; [reflexivity|].
  destruct (f x); simpl.
  - now constructor.
  - rewrite <- Permutation_middle. now constructor.
Qed.

(** [Object.keys] lists every property name once. *)
Lemma Object_keys_perm (props : list (jsstring * value)) :
  Permutation (Object_keys (VObject props)) (map fst props).
Proof.
  unfold Object_keys, string_keys. simpl object_props.
  rewrite <- (filter_partition_perm is_array_index (map fst props)) at 3.
  apply Permutation_app_tail.
  rewrite <- index_keys_snd. apply Permutation_map, sort_indices_perm.
Qed.

(** The array indices come first, in ascending numeric order; the other
    names follow in creation order. *)
Lemma Object_keys_order (props : list (jsstring * value)) :
  exists idx,
    Object_keys (VObject props) = idx ++ string_keys (map fst props)
    /\ Permutation idx (filter is_array_index (map fst props))
    /\ StronglySorted key_index_le idx.
Proof.
  exists (map snd (sort_indices (index_keys (map fst props)))).
  split; [reflexivity|]. split.
  - rewrite <- index_keys_snd. apply Permutation_map, sort_indices_perm.
  - pose proof (sort_indices_sorted (index_keys (map fst props))) as Hs.
    assert (Hi : Forall (fun nk => array_index (snd nk) = Some (fst nk))
                        (sort_indices (index_keys (map fst props)))).
    { eapply Permutation_Forall; [symmetry; apply sort_indices_perm|].
      apply index_keys_index. }
    induction Hs as [|a l Hl IH Ha]; simpl; [constructor|].
    inversion Hi as [|? ? Hia Hil]; subst.
    constructor; [now apply IH|].
    apply Forall_map. rewrite Forall_forall in *.
    intros b Hb. unfold key_index_le. rewrite Hia, (Hil b Hb).
    now apply Ha.
Qed.

(** Without array indices among the names, [Object.keys] is the
    creation order. *)
Lemma Object_keys_insertion_order (props : list (jsstring * value)) :
  forallb (fun k => negb (is_array_index k)) (map fst props) = true ->
  Object_keys (VObject props) = map fst props.
Proof.
  intros Hall. unfold Object_keys, string_keys. simpl object_props.
  rewrite forallb_forall in Hall.
  assert (Hidx : index_keys (map fst props) = []).
  { induction (map fst props) as [|k names IH]; simpl; [reflexivity|].
    pose proof (Hall k (or_introl eq_refl)) as Hk. unfold is_array_index in Hk.
    destruct (array_index k); [discriminate|]. simpl.
    apply IH. intros x Hx. apply Hall. now right. }
  rewrite Hidx. simpl.
  induction (map fst props) as [|k names IH]; simpl; [reflexivity|].
  rewrite (Hall k (or_introl eq_refl)). f_equal. apply IH.
  - intros x Hx. apply Hall. now right.
  - simpl in Hidx. destruct (array_index k); [discriminate | assumption].
Qed.

Lemma Object_keys_length (props : list (jsstring * value)) :
  List.length (Object_keys (VObject props)) = List.length props.
Proof.
  rewrite (Permutation_length (Object_keys_perm props)). apply length_map.
Qed.

Lemma lookup_In (props : list (jsstring * value)) (key : jsstring) :
  In key (map fst props) -> In (key, lookup props key) props.
Proof.
  induction props as [|[k v] props IH]; simpl; [tauto|].
  destruct (list_eq_dec N.eq_dec k key) as [->|Hne].
  - intros _. now left.
  - intros [H|H]; [contradiction|]. right. now apply IH.
Qed.

(** ** TreeRenderer: one render of [JsonNode] *)

Lemma map_index_length {A B : Type} (f : A -> Z -> B) (l : list A) :
  forall i, List.length (map_index f i l) = List.length l.
Proof.
  induction l as [|x l IH]; intros i; simpl; [reflexivity|]. now rewrite IH.
Qed.

Lemma map_index_nth {A B : Type} (f : A -> Z -> B) (l : list A) :
  forall (i : Z) (k : nat),
    nth_error (map_index f i l) k
    = option_map (fun x => f x (i + Z.of_nat k)) (nth_error l k).
Proof.
  induction l as [|x l IH]; intros i [|k]; simpl; try reflexivity.
  - now rewrite Z.add_0_r.
  - rewrite IH. destruct (nth_error l k); simpl; [|reflexivity].
    do 2 f_equal. lia.
Qed.

Lemma map_index_map {A B C : Type} (f : A -> Z -> B) (g : B -> C) (h : A -> C)
    (l : list A) :
  (forall x i, g (f x i) = h x) ->
  forall i, map g (map_index f i l) = map h l.
Proof.
  intros Hgh. induction l as [|x l IH]; intros i; simpl; [reflexivity|].
  now rewrite Hgh, IH.
Qed.

Lemma comma_rule (i n : nat) :
  (i < n)%nat ->
  (0 + Z.of_nat i <? Z.of_nat n - 1) = negb (Nat.eqb (S i) n).
Proof.
  intros Hi.
  destruct (Nat.eqb_spec (S i) n); simpl.
  - apply Z.ltb_ge. lia.
  - apply Z.ltb_lt. lia.
Qed.

Lemma JsonNode_object_expanded (props : list (jsstring * value)) (indentLevel : Z) :
  props <> [] ->
  JsonNode (VObject props) indentLevel false =
    EExpanded (lit "{")
      (map_index (fun key index =>
           {| row_key := Some key;
              row_child := (get (VObject props) key, indentLevel + 1);
              row_comma :=
                index <? array_length (Object_keys (VObject props)) - 1 |})
         0 (Object_keys (VObject props)))
      (lit "}").
Proof.
  intros Hne. unfold JsonNode. simpl Array_isArray. cbv iota.
  unfold array_length at 1. rewrite Object_keys_length.
  destruct props as [|kv props]; [contradiction|]. reflexivity.
Qed.

Lemma JsonNode_array_expanded (items : list value) (indentLevel : Z) :
  items <> [] ->
  JsonNode (VArray items) indentLevel false =
    EExpanded (lit "[")
      (map_index (fun item index =>
           {| row_key := None;
              row_child := (item, indentLevel + 1);
              row_comma := index <? array_length items - 1 |})
         0 items)
      (lit "]").
Proof.
  intros Hne. destruct items as [|item items]; [contradiction|]. reflexivity.
Qed.

(** C6, as the code has it. An expanded Record with at least one entry
    shows one row per key, in the order of [Object.keys]: the keys that
    are array indices in ascending numeric order, then the other keys in
    insertion order (so plain insertion order when no key is an array
    index).  Each row carries its quoted key and that key's value, and
    every row but the last a comma.  An expanded List shows its items in
    index order with the same comma rule. *)
Theorem JsonNode_expanded_rows :
  (forall (props : list (jsstring * value)) (indentLevel : Z),
      props <> [] ->
      exists rows,
        JsonNode (VObject props) indentLevel false
        = EExpanded (lit "{") rows (lit "}")
        /\ List.length rows = List.length props
        /\ map row_key rows = map Some (Object_keys (VObject props))
        /\ (forall i key,
               nth_error (Object_keys (VObject props)) i = Some key ->
               In (key, get (VObject props) key) props
               /\ nth_error rows i
                  = Some {| row_key := Some key;
                            row_child := (get (VObject props) key, indentLevel + 1);
                            row_comma := negb (Nat.eqb (S i) (List.length props)) |})
        /\ Permutation (Object_keys (VObject props)) (map fst props)
        /\ (exists idx,
               Object_keys (VObject props) = idx ++ string_keys (map fst props)
               /\ Permutation idx (filter is_array_index (map fst props))
               /\ StronglySorted key_index_le idx)
        /\ (forallb (fun k => negb (is_array_index k)) (map fst props) = true ->
            map row_key rows = map Some (map fst props)))
  /\ (forall (items : list value) (indentLevel : Z),
         items <> [] ->
         exists rows,
           JsonNode (VArray items) indentLevel false
           = EExpanded (lit "[") rows (lit "]")
           /\ List.length rows = List.length items
           /\ (forall i item,
                  nth_error items i = Some item ->
                  nth_error rows i
                  = Some {| row_key := None;
                            row_child := (item, indentLevel + 1);
                            row_comma := negb (Nat.eqb (S i) (List.length items)) |})).
Proof.
  split.
  - intros props indentLevel Hne. eexists.
    split; [now apply JsonNode_object_expanded|].
    assert (Hkeys : map row_key
              (map_index (fun key index =>
                 {| row_key := Some key;
                    row_child := (get (VObject props) key, indentLevel + 1);
                    row_comma :=
                      index <? array_length (Object_keys (VObject props)) - 1 |})
                 0 (Object_keys (VObject props)))
              = map Some (Object_keys (VObject props)))
      by now apply map_index_map.
    split; [now rewrite map_index_length, Object_keys_length|].
    split; [exact Hkeys|]. split; [|split; [apply Object_keys_perm|split]].
    + intros i key Hi. split.
      * apply lookup_In.
        apply (Permutation_in _ (Object_keys_perm props)).
        eapply nth_error_In; eassumption.
      * rewrite map_index_nth, Hi. simpl. do 2 f_equal.
        unfold array_length. rewrite Object_keys_length.
        apply comma_rule. rewrite <- Object_keys_length.
        apply nth_error_Some. congruence.
    + apply Object_keys_order.
    + intros Hall. rewrite Hkeys. now rewrite Object_keys_insertion_order.
  - intros items indentLevel Hne. eexists.
    split; [now apply JsonNode_array_expanded|].
    split; [now rewrite map_index_length|].
    intros i item Hi. rewrite map_index_nth, Hi. simpl. do 2 f_equal.
    apply comma_rule. apply nth_error_Some. congruence.
Qed.

Lemma JsonNode_expanded_rows_witness :
  (exists rows,
      JsonNode record_b1 0 false = EExpanded (lit "{") rows (lit "}")
      /\ map row_key rows = map Some (Object_keys record_b1))
  /\ (exists rows,
         JsonNode nested_list 0 false = EExpanded (lit "[") rows (lit "]")
         /\ List.length rows = 2%nat).
Proof.
  split.
  - destruct (proj1 JsonNode_expanded_rows (object_props record_b1) 0)
      as (rows & Heq & _ & Hkeys & _); [discriminate|].
    exists rows. split; [exact Heq | exact Hkeys].
  - destruct (proj2 JsonNode_expanded_rows (array_items nested_list) 0)
      as (rows & Heq & Hlen & _); [discriminate|].
    exists rows. split; [exact Heq | exact Hlen].
Defined.

(** C6 as stated fails: the members b, 1 (in that order) are shown 1
    first. *)
Lemma JsonNode_insertion_order_counterexample :
  map fst (object_props record_b1) = [lit "b"; lit "1"]
  /\ map row_key (element_rows (JsonNode record_b1 0 false))
     = [Some (lit "1"); Some (lit "b")]
  /\ map row_key (element_rows (JsonNode record_b1 0 false))
     <> map Some (map fst (object_props record_b1)).
Proof.
  split; [reflexivity|]. split; [reflexivity|]. discriminate.
Qed.

(** ** TreeRenderer: component instances *)

Lemma consistent_unfold (v : value) (d : Z) (c : bool) (ch : list instance) :
  consistent (Instance v d c ch) <->
  map instance_props ch = child_props (JsonNode v d c) /\ Forall consistent ch.
Proof.
  simpl. apply and_iff_compat_l.
  induction ch as [|y ch IH]; [split; [constructor | trivial]|].
  rewrite IH. split.
  - intros [Hy Hch]. now constructor.
  - intros H. inversion H. now split.
Qed.

Lemma depths_nonneg_unfold (v : value) (d : Z) (c : bool) (ch : list instance) :
  depths_nonneg (Instance v d c ch) <-> 0 <= d /\ Forall depths_nonneg ch.
Proof.
  simpl. apply and_iff_compat_l.
  induction ch as [|y ch IH]; [split; [constructor | trivial]|].
  rewrite IH. split.
  - intros [Hy Hch]. now constructor.
  - intros H. inversion H. now split.
Qed.

(** The nested elements of a render: none when collapsed, else one per
    item or key, one level deeper. *)
Lemma child_props_collapsed (v : value) (d : Z) :
  child_props (JsonNode v d true) = [].
Proof.
  destruct v as [| | | |items|props|]; try reflexivity; unfold JsonNode;
    simpl Array_isArray; cbv iota;
    match goal with |- context [if ?c then _ else _] => destruct c end;
    reflexivity.
Qed.

Lemma child_props_expanded (v : value) (d : Z) :
  child_props (JsonNode v d false) =
    match v with
    | VArray items => map (fun item => (item, d + 1)) items
    | VObject _ => map (fun key => (get v key, d + 1)) (Object_keys v)
    | _ => []
    end.
Proof.
  destruct v as [| | | |items|props|]; try reflexivity.
  - destruct items as [|item items]; [reflexivity|].
    rewrite JsonNode_array_expanded by discriminate. unfold child_props.
    now apply map_index_map.
  - destruct props as [|kv props]; [reflexivity|].
    rewrite JsonNode_object_expanded by discriminate. unfold child_props.
    now apply map_index_map.
Qed.

Lemma child_props_depth (v : value) (d : Z) (c : bool) (p : value * Z) :
  In p (child_props (JsonNode v d c)) -> snd p = d + 1.
Proof.
  destruct c; [now rewrite child_props_collapsed|].
  rewrite child_props_expanded.
  destruct v; simpl; try tauto; rewrite in_map_iff;
    intros (x & <- & _); reflexivity.
Qed.

Lemma height_item (items : list value) (item : value) :
  In item items ->
  (height item <= fold_right (fun item h => Nat.max (height item) h) O items)%nat.
Proof.
  induction items as [|x items IH]; simpl; [tauto|].
  intros [->|H]; [lia|]. specialize (IH H). lia.
Qed.

Lemma height_lookup (props : list (jsstring * value)) (key : jsstring) :
  (height (lookup props key)
   <= fold_right (fun kv h => Nat.max (height (snd kv)) h) O props)%nat.
Proof.
  induction props as [|[k v] props IH]; simpl; [lia|].
  destruct (list_eq_dec N.eq_dec k key); simpl; lia.
Qed.

Lemma child_props_height (v : value) (d : Z) (c : bool) (p : value * Z) :
  In p (child_props (JsonNode v d c)) -> (height (fst p) < height v)%nat.
Proof.
  destruct c; [now rewrite child_props_collapsed|].
  rewrite child_props_expanded.
  destruct v as [| | | |items|props|]; simpl; try tauto; rewrite in_map_iff.
  - intros (item & <- & Hin). simpl. apply height_item in Hin. lia.
  - intros (key & <- & _). simpl. unfold get. simpl object_props.
    pose proof (height_lookup props key). lia.
Qed.

Lemma child_props_leaf (v : value) (d : Z) (c : bool) :
  height v = O -> child_props (JsonNode v d c) = [].
Proof.
  intros Hh. destruct (child_props (JsonNode v d c)) as [|p l] eqn:E;
    [reflexivity|].
  assert (Hin : In p (child_props (JsonNode v d c))) by (rewrite E; now left).
  apply child_props_height in Hin. lia.
Qed.

(** *** The first render *)

Lemma mount_upto_props (n : nat) (v : value) (d : Z) :
  instance_props (mount_upto n v d) = (v, d).
Proof. destruct n; reflexivity. Qed.

Lemma mount_upto_element (n : nat) (v : value) (d : Z) :
  instance_element (mount_upto n v d) = JsonNode v d (useState_initial d).
Proof. destruct n; reflexivity. Qed.

(** Below the root a node starts collapsed, with nothing rendered in
    it. *)
Lemma mount_upto_collapsed (n : nat) (v : value) (d : Z) :
  0 < d -> mount_upto n v d = Instance v d true [].
Proof.
  intros Hd. assert (Hc : useState_initial d = true)
    by (unfold useState_initial; destruct (Z.gtb_spec d 0); [reflexivity | lia]).
  destruct n; simpl; rewrite Hc; [reflexivity|].
  now rewrite child_props_collapsed.
Qed.

(** The bound [height nodeData] is enough: a larger one gives the same
    instances. *)
Lemma mount_upto_enough (v : value) (d : Z) :
  forall n m, (height v <= n)%nat -> (height v <= m)%nat ->
              mount_upto n v d = mount_upto m v d.
Proof.
  intros n. revert v d.
  induction n as [|n IH]; intros v d m Hn Hm.
  - destruct m as [|m]; [reflexivity|]. simpl.
    now rewrite child_props_leaf by lia.
  - destruct m as [|m]; simpl.
    + now rewrite child_props_leaf by lia.
    + f_equal. apply map_ext_in. intros p Hp.
      apply child_props_height in Hp. apply IH; lia.
Qed.

Lemma mount_upto_mount (n : nat) (v : value) (d : Z) :
  (height v <= n)%nat -> mount_upto n v d = mount v d.
Proof. intros Hn. now apply mount_upto_enough. Qed.

(** A first render leaves one instance for every nested element, all
    the way down: the bound on the recursion is never what stops it. *)
Lemma mount_upto_consistent :
  forall n v d, (height v <= n)%nat -> consistent (mount_upto n v d).
Proof.
  induction n as [|n IH]; intros v d Hn; simpl mount_upto;
    apply consistent_unfold.
  - split; [|constructor]. now rewrite child_props_leaf by lia.
  - split.
    + rewrite map_map. erewrite map_ext; [apply map_id|].
      intros [v' d']. apply mount_upto_props.
    + apply Forall_map, Forall_forall. intros p Hp.
      apply child_props_height in Hp. apply IH. lia.
Qed.

Lemma mount_consistent (v : value) (d : Z) : consistent (mount v d).
Proof. now apply mount_upto_consistent. Qed.

Lemma mount_upto_depths :
  forall n v d, 0 <= d -> depths_nonneg (mount_upto n v d).
Proof.
  induction n as [|n IH]; intros v d Hd; simpl mount_upto;
    apply depths_nonneg_unfold; (split; [assumption|]); [constructor|].
  apply Forall_map, Forall_forall. intros p Hp.
  apply child_props_depth in Hp. apply IH. lia.
Qed.

(** The children of a first render are themselves first renders. *)
Lemma mount_children (v : value) (d : Z) :
  instance_children (mount v d) = fresh_children (mount v d).
Proof.
  unfold fresh_children, mount. rewrite mount_upto_element.
  destruct (height v) as [|n] eqn:Hh; simpl.
  - now rewrite child_props_leaf.
  - apply map_ext_in. intros p Hp. apply mount_upto_enough; [|lia].
    apply child_props_height in Hp. lia.
Qed.

Lemma collapsible_nonempty (v : value) (d : Z) (c : bool) :
  nonempty_container v = true -> collapsible (JsonNode v d c) = true.
Proof.
  destruct v as [| | | |[|item items]|[|kv props]|]; try discriminate; intros _.
  - destruct c; reflexivity.
  - unfold JsonNode. simpl Array_isArray. cbv iota.
    unfold array_length. rewrite Object_keys_length.
    destruct c; reflexivity.
Qed.

Lemma collapsible_state (v : value) (d : Z) (c c' : bool) :
  collapsible (JsonNode v d c) = collapsible (JsonNode v d c').
Proof.
  destruct v as [| | | |items|props|]; try reflexivity; unfold JsonNode;
    simpl Array_isArray; cbv iota;
    match goal with |- context [if ?b then _ else _] => destruct b end;
    destruct c, c'; reflexivity.
Qed.

Lemma flag_at_collapsed_leaf (v : value) (d : Z) (path : list nat) (c : bool) :
  flag_at path (Instance v d true []) = Some c -> c = true.
Proof.
  destruct path as [|i path]; unfold flag_at; simpl.
  - now intros [= <-].
  - destruct i; discriminate.
Qed.

Lemma fresh_children_collapsed (x y : instance) :
  0 <= snd (instance_props x) ->
  In y (fresh_children x) ->
  exists v d, y = Instance v d true [].
Proof.
  destruct x as [v d c ch]. simpl. intros Hd. unfold fresh_children.
  rewrite in_map_iff. intros ([v' d'] & <- & Hin).
  apply child_props_depth in Hin. simpl in *. subst d'.
  exists v', (d + 1). unfold mount. apply mount_upto_collapsed. lia.
Qed.

(** C7. A List or Record with at least one element renders as a
    collapsible node; its first state is collapsed exactly when the
    depth is greater than 0: the root, at depth 0, starts expanded, and
    every node below a first render starts collapsed. *)
Theorem JsonNode_initial_collapse (v : value) (d : Z) :
  nonempty_container v = true ->
  0 <= d ->
  collapsible (instance_element (mount v d)) = true
  /\ (flag_at [] (mount v d) = Some true <-> d > 0)
  /\ (d = 0 -> flag_at [] (mount v d) = Some false)
  /\ flag_at [] (JsonViewer v) = Some false
  /\ (forall path c,
         path <> [] -> flag_at path (mount v d) = Some c -> c = true).
Proof.
  intros Hne Hd. unfold JsonViewer, mount.
  split; [rewrite mount_upto_element; now apply collapsible_nonempty|].
  assert (Hflag : forall n d', flag_at [] (mount_upto n v d')
                               = Some (useState_initial d'))
    by (intros [|n] d'; reflexivity).
  rewrite !Hflag. unfold useState_initial.
  split; [|split; [|split]].
  - destruct (Z.gtb_spec d 0); split; try discriminate; try lia; reflexivity.
  - intros ->. reflexivity.
  - reflexivity.
  - intros [|i path] c Hpath; [contradiction|]. unfold flag_at. simpl subtree_at.
    fold (mount v d). rewrite mount_children.
    destruct (nth_error (fresh_children (mount v d)) i) as [y|] eqn:Hy;
      [|discriminate].
    apply nth_error_In, fresh_children_collapsed in Hy as (v' & d' & ->).
    + apply flag_at_collapsed_leaf.
    + unfold mount. now rewrite mount_upto_props.
Qed.

Lemma JsonNode_initial_collapse_witness :
  collapsible (instance_element (mount nested_list 0)) = true
  /\ (flag_at [] (mount nested_list 0) = Some true <-> 0 > 0)
  /\ (0 = 0 -> flag_at [] (mount nested_list 0) = Some false)
  /\ flag_at [] (JsonViewer nested_list) = Some false
  /\ (forall path c,
         path <> [] -> flag_at path (mount nested_list 0) = Some c -> c = true).
Proof.
  apply (JsonNode_initial_collapse nested_list 0); [reflexivity | lia].
Defined.

(** *** Clicks *)

Lemma update_nth_nth {A : Type} (f : A -> A) (l : list A) :
  forall i j,
    nth_error (update_nth i f l) j
    = if Nat.eqb i j then option_map f (nth_error l j) else nth_error l j.
Proof.
  induction l as [|x l IH]; intros [|i] [|j]; simpl; try reflexivity.
  - now destruct (Nat.eqb i j).
  - apply IH.
Qed.

Lemma update_nth_map {A B : Type} (g : A -> B) (f : A -> A) (l : list A) :
  (forall x, g (f x) = g x) ->
  forall i, map g (update_nth i f l) = map g l.
Proof.
  intros Hg. induction l as [|x l IH]; intros [|i]; simpl; try reflexivity.
  - now rewrite Hg.
  - now rewrite IH.
Qed.

Lemma update_nth_Forall {A : Type} (P : A -> Prop) (f : A -> A) (l : list A) :
  (forall x, P x -> P (f x)) ->
  Forall P l -> forall i, Forall P (update_nth i f l).
Proof.
  intros Hf Hl. induction Hl as [|x l Hx Hl IH]; intros [|i]; simpl;
    constructor; auto.
Qed.

Lemma update_nth_twice {A : Type} (f g : A -> A) (l : list A) :
  forall i, update_nth i f (update_nth i g l) = update_nth i (fun x => f (g x)) l.
Proof.
  induction l as [|x l IH]; intros [|i]; simpl; try reflexivity.
  now rewrite IH.
Qed.

Lemma update_nth_fixed {A : Type} (f : A -> A) (l : list A) :
  forall i, (forall y, nth_error l i = Some y -> f y = y) ->
            update_nth i f l = l.
Proof.
  induction l as [|x l IH]; intros [|i] Hf; simpl; try reflexivity.
  - now rewrite Hf.
  - now rewrite IH.
Qed.

Lemma click_props (path : list nat) (x : instance) :
  instance_props (click path x) = instance_props x.
Proof.
  destruct path as [|i path], x as [v d c ch]; simpl; [|reflexivity].
  now destruct (collapsible (JsonNode v d c)).
Qed.

Lemma toggleCollapse_consistent (x : instance) : consistent (toggleCollapse x).
Proof.
  destruct x as [v d c ch]. apply consistent_unfold. split.
  - rewrite map_map. erewrite map_ext; [apply map_id|].
    intros [v' d']. apply mount_upto_props.
  - apply Forall_map, Forall_forall. intros p _. apply mount_consistent.
Qed.

(** Clicks keep the instances in step with what is rendered. *)
Lemma click_consistent (path : list nat) :
  forall x, consistent x -> consistent (click path x).
Proof.
  induction path as [|i path IH]; intros [v d c ch] Hx.
  - simpl. destruct (collapsible (JsonNode v d c)); [|exact Hx].
    apply (toggleCollapse_consistent (Instance v d c ch)).
  - simpl. apply consistent_unfold in Hx as [Hprops Hch].
    apply consistent_unfold. split.
    + rewrite update_nth_map; [assumption | apply click_props].
    + now apply update_nth_Forall.
Qed.

Lemma click_depths (path : list nat) :
  forall x, depths_nonneg x -> depths_nonneg (click path x).
Proof.
  induction path as [|i path IH]; intros [v d c ch] Hx;
    apply depths_nonneg_unfold in Hx as [Hd Hch].
  - cbn [click instance_element].
    destruct (collapsible (JsonNode v d c));
      [|now apply depths_nonneg_unfold].
    cbn [toggleCollapse]. apply depths_nonneg_unfold. split; [assumption|].
    apply Forall_map, Forall_forall. intros p Hp.
    apply child_props_depth in Hp. apply mount_upto_depths. lia.
  - cbn [click]. apply depths_nonneg_unfold. split; [assumption|].
    now apply update_nth_Forall.
Qed.

Lemma reachable_invariant (data : value) (x : instance) :
  reachable data x -> consistent x /\ depths_nonneg x.
Proof.
  induction 1 as [|x path _ [Hc Hd]].
  - split; [apply mount_consistent | apply mount_upto_depths; lia].
  - split; [now apply click_consistent | now apply click_depths].
Qed.

Lemma subtree_at_invariant (path : list nat) :
  forall x y, subtree_at path x = Some y ->
              consistent x /\ depths_nonneg x ->
              consistent y /\ depths_nonneg y.
Proof.
  induction path as [|i path IH]; intros [v d c ch] y;
    cbn [subtree_at instance_children].
  - now intros [= <-].
  - destruct (nth_error ch i) as [z|] eqn:Hz; [|discriminate].
    intros Hy [Hc Hd]. apply (IH z y Hy).
    apply consistent_unfold in Hc as [_ Hc].
    apply depths_nonneg_unfold in Hd as [_ Hd].
    rewrite Forall_forall in Hc, Hd. apply nth_error_In in Hz.
    split; [now apply Hc | now apply Hd].
Qed.

Lemma subtree_at_app (p q : list nat) :
  forall x, subtree_at (p ++ q) x
            = match subtree_at p x with
              | Some y => subtree_at q y
              | None => None
              end.
Proof.
  induction p as [|i p IH]; intros x; simpl; [reflexivity|].
  destruct (nth_error (instance_children x) i); [apply IH | reflexivity].
Qed.

(** A click at [path] acts on the node there, as a click on it. *)
Lemma subtree_at_click (path : list nat) :
  forall x, subtree_at path (click path x)
            = option_map (click []) (subtree_at path x).
Proof.
  induction path as [|i path IH]; intros [v d c ch]; [reflexivity|].
  simpl. rewrite update_nth_nth, Nat.eqb_refl.
  destruct (nth_error ch i); simpl; [apply IH | reflexivity].
Qed.

Lemma click_root_flag (x : instance) :
  is_collapsed (click [] x)
  = if collapsible (instance_element x) then negb (is_collapsed x)
    else is_collapsed x.
Proof.
  destruct x as [v d c ch]. simpl.
  now destruct (collapsible (JsonNode v d c)).
Qed.

Lemma click_root_collapsible (x : instance) :
  collapsible (instance_element (click [] x)) = collapsible (instance_element x).
Proof.
  destruct x as [v d c ch]. simpl.
  destruct (collapsible (JsonNode v d c)) eqn:E; simpl; [|exact E].
  now rewrite (collapsible_state v d (negb c) c).
Qed.

(** A click leaves alone the state of every node outside the subtree
    of the clicked one. *)
Lemma click_other_flag (path : list nat) :
  forall q x, (forall r, q <> path ++ r) ->
              flag_at q (click path x) = flag_at q x.
Proof.
  induction path as [|i path IH]; intros q [v d c ch] Hq.
  - exfalso. now apply (Hq q).
  - destruct q as [|j q]; [reflexivity|].
    unfold flag_at. simpl. rewrite update_nth_nth.
    destruct (Nat.eqb_spec i j) as [->|Hne]; [|reflexivity].
    destruct (nth_error ch j) as [z|]; [|reflexivity]. simpl.
    apply (IH q z). intros r ->. now apply (Hq r).
Qed.

(** Two clicks on a node whose children are as a render creates them
    give back the same instances. *)
Lemma click_root_twice (y : instance) :
  instance_children y = fresh_children y -> click [] (click [] y) = y.
Proof.
  destruct y as [v d c ch]. unfold fresh_children. simpl. intros ->.
  destruct (collapsible (JsonNode v d c)) eqn:E; simpl.
  - rewrite (collapsible_state v d (negb c) c), E. simpl.
    now rewrite negb_involutive.
  - now rewrite E.
Qed.

Lemma collapsed_children (y : instance) :
  consistent y -> is_collapsed y = true ->
  instance_children y = fresh_children y.
Proof.
  destruct y as [v d c ch]. simpl is_collapsed. intros Hc ->.
  apply consistent_unfold in Hc as [Hprops _].
  unfold fresh_children. simpl. rewrite child_props_collapsed in *.
  now destruct ch.
Qed.

Lemma click_twice (path : list nat) :
  forall x y, subtree_at path x = Some y ->
              click [] (click [] y) = y ->
              click path (click path x) = x.
Proof.
  induction path as [|i path IH]; intros [v d c ch] y.
  - now intros [= <-].
  - simpl subtree_at. destruct (nth_error ch i) as [z|] eqn:Hz; [|discriminate].
    intros Hy Hyy. simpl. f_equal. rewrite update_nth_twice.
    apply update_nth_fixed. intros z' Hz'.
    assert (z' = z) by congruence. subst z'. now apply (IH z y).
Qed.

(** C8, as the code has it. For a tree reached by clicks from the first
    render and a node at [path]: two toggles restore the node's own
    flag, and one toggle of a collapsible node flips it; a toggle leaves
    the flag of every node outside the node's subtree (siblings,
    ancestors and their other descendants) as it was; two toggles give
    back the same tree and display when the node was collapsed or its
    children were as first rendered; after a toggle every node below
    the toggled one is either not rendered or collapsed, whatever its
    state was before. *)
Theorem toggleCollapse_effect (data : value) (x : instance) (path : list nat) :
  reachable data x ->
  flag_at path (click path (click path x)) = flag_at path x
  /\ (forall y,
         subtree_at path x = Some y ->
         collapsible (instance_element y) = true ->
         flag_at path (click path x) = Some (negb (is_collapsed y)))
  /\ (forall q, (forall r, q <> path ++ r) ->
                flag_at q (click path x) = flag_at q x)
  /\ (forall y,
         subtree_at path x = Some y ->
         is_collapsed y = true \/ instance_children y = fresh_children y ->
         click path (click path x) = x
         /\ display (click path (click path x)) = display x)
  /\ (forall y,
         subtree_at path x = Some y ->
         collapsible (instance_element y) = true ->
         forall i r c,
           flag_at (path ++ i :: r) (click path x) = Some c -> c = true).
Proof.
  intros Hreach. pose proof (reachable_invariant data x Hreach) as Hinv.
  split; [|split; [|split; [|split]]].
  - unfold flag_at. rewrite !subtree_at_click.
    destruct (subtree_at path x) as [y|]; [|reflexivity].
    cbn [option_map]. f_equal.
    rewrite click_root_flag, click_root_collapsible, click_root_flag.
    destruct (collapsible (instance_element y)); [|reflexivity].
    apply negb_involutive.
  - intros y Hy Hcol. unfold flag_at. rewrite subtree_at_click, Hy.
    cbn [option_map]. now rewrite click_root_flag, Hcol.
  - intros q Hq. now apply click_other_flag.
  - intros y Hy Hfresh.
    assert (Heq : click path (click path x) = x).
    { apply (click_twice path x y Hy), click_root_twice.
      destruct Hfresh as [Hcol|]; [|assumption].
      apply collapsed_children; [|assumption].
      now apply (subtree_at_invariant path x y Hy). }
    split; [exact Heq | now rewrite Heq].
  - intros y Hy Hcol i r c.
    destruct (subtree_at_invariant path x y Hy Hinv) as [_ Hdepth].
    unfold flag_at. rewrite subtree_at_app, subtree_at_click, Hy.
    cbn [option_map click]. rewrite Hcol.
    destruct y as [v d b ch]. apply depths_nonneg_unfold in Hdepth as [Hd _].
    cbn [toggleCollapse subtree_at instance_children].
    destruct (nth_error _ i) as [z|] eqn:Hz; [|discriminate].
    apply nth_error_In in Hz.
    apply (fresh_children_collapsed (Instance v d (negb b) [])) in Hz
      as (v' & d' & ->); [|assumption].
    apply flag_at_collapsed_leaf.
Qed.

Lemma toggleCollapse_effect_witness :
  reachable nested_list inner_expanded
  /\ flag_at [0%nat] (click [0%nat] (click [0%nat] inner_expanded))
     = flag_at [0%nat] inner_expanded
  /\ flag_at [0%nat] (click [0%nat] inner_expanded) = Some (negb false)
  /\ flag_at [1%nat] (click [0%nat] inner_expanded)
     = flag_at [1%nat] inner_expanded
  /\ flag_at [] (click [0%nat] inner_expanded) = flag_at [] inner_expanded
  /\ click [0%nat] (click [0%nat] inner_expanded) = inner_expanded
  /\ display (click [0%nat] (click [0%nat] inner_expanded))
     = display inner_expanded
  /\ (forall c,
         flag_at ([0%nat] ++ [0%nat]) (click [0%nat] (JsonViewer nested_list))
         = Some c -> c = true).
Proof.
  assert (Hreach : reachable nested_list inner_expanded)
    by (apply reachable_click, reachable_mount).
  destruct (toggleCollapse_effect nested_list inner_expanded [0%nat] Hreach)
    as (Hown & Hflip & Hother & Htwice & _).
  destruct (toggleCollapse_effect nested_list (JsonViewer nested_list) [0%nat]
              (reachable_mount nested_list)) as (_ & _ & _ & _ & Hbelow).
  split; [exact Hreach|]. split; [exact Hown|].
  split; [exact (Hflip _ eq_refl eq_refl)|].
  split; [apply Hother; intros r H; discriminate H|].
  split; [apply Hother; intros r H; discriminate H|].
  split; [exact (proj1 (Htwice _ eq_refl (or_intror eq_refl)))|].
  split; [exact (proj2 (Htwice _ eq_refl (or_intror eq_refl)))|].
  intros c. exact (Hbelow _ eq_refl eq_refl 0%nat [] c).
Defined.

(** C8 as stated fails: with the inner list expanded, collapsing and
    expanding the root again shows the inner list collapsed. The first
    toggle drops the inner node's state, the second creates it anew. *)
Lemma toggleCollapse_twice_counterexample :
  reachable nested_list inner_expanded
  /\ collapsible (instance_element inner_expanded) = true
  /\ flag_at [0%nat] inner_expanded = Some false
  /\ flag_at [0%nat] (click [] inner_expanded) = None
  /\ flag_at [0%nat] (click [] (click [] inner_expanded)) = Some true
  /\ display (click [] (click [] inner_expanded)) <> display inner_expanded.
Proof.
  split; [apply reachable_click, reachable_mount|].
  repeat (split; [reflexivity|]).
  vm_compute. discriminate.
Qed.

(* ================================================================== *)
(** * Properties of the rest of the editor *)

(** ** The highlighter layer *)

Lemma length_firstn_prefix (s : jsstring) (a : Z) :
  0 <= a <= length s -> length (firstn (Z.to_nat a) s) = a.
Proof.
  intros Ha. unfold length, array_length in *. rewrite length_firstn. lia.
Qed.

Lemma substring_in_order (s : jsstring) (a b : Z) :
  0 <= a <= b -> b <= length s ->
  Builtins.substring s a b
  = firstn (Z.to_nat (b - a)) (skipn (Z.to_nat a) s).
Proof.
  intros Ha Hb. unfold Builtins.substring, Builtins.clamp.
  replace (Z.min (Z.max a 0) (length s)) with a by lia.
  replace (Z.min (Z.max b 0) (length s)) with b by lia.
  now replace (Z.min a b) with a by lia; replace (Z.max a b) with b by lia.
Qed.

(** The three [substring] calls of the highlighter cut the text at
    [a] and [b]. *)
Lemma substring_three_way (s : jsstring) (a b : Z) :
  0 <= a <= b -> b <= length s ->
  Builtins.substring s 0 a ++ Builtins.substring s a b
    ++ Builtins.substring_from s b = s
  /\ length (Builtins.substring s 0 a) = a
  /\ length (Builtins.substring s a b) = b - a.
Proof.
  intros Ha Hb. unfold Builtins.substring_from.
  rewrite !substring_in_order by lia.
  rewrite Z.sub_0_r. change (Z.to_nat 0) with O. simpl skipn.
  assert (Hlen : List.length s = Z.to_nat (length s))
    by (unfold length, array_length; lia).
  assert (Htail : firstn (Z.to_nat (length s - b)) (skipn (Z.to_nat b) s)
                  = skipn (Z.to_nat (b - a)) (skipn (Z.to_nat a) s)).
  { rewrite skipn_skipn. replace (Z.to_nat (b - a) + Z.to_nat a)%nat
      with (Z.to_nat b) by lia.
    apply firstn_all2. rewrite length_skipn. lia. }
  rewrite Htail. split; [|split].
  - now rewrite firstn_skipn, firstn_skipn.
  - apply length_firstn_prefix. lia.
  - unfold length, array_length in *. rewrite length_firstn, length_skipn. lia.
Qed.

(** X1. Whatever the text and the message, the highlighter layer shows
    the input text itself followed by a newline; when there is a span
    the marked part is the characters from [start] to [end]. *)
Theorem highlighter_shows_input (text errorMessage : jsstring) :
  overlay_text (highlighter text (calculateErrorRange text errorMessage))
  = text ++ [LF]
  /\ (forall r,
         calculateErrorRange text errorMessage = Some r ->
         exists before marked after,
           highlighter text (Some r)
           = [Plain before; Marked marked; Plain after; Plain [LF]]
           /\ before ++ marked ++ after = text
           /\ length before = start r
           /\ length marked = end_ r - start r).
Proof.
  assert (G : forall r,
             calculateErrorRange text errorMessage = Some r ->
             exists before marked after,
               highlighter text (Some r)
               = [Plain before; Marked marked; Plain after; Plain [LF]]
               /\ before ++ marked ++ after = text
               /\ length before = start r
               /\ length marked = end_ r - start r).
  { intros r Hr. apply calculateErrorRange_well_formed in Hr as [Hs He].
    destruct (substring_three_way text (start r) (end_ r)) as (H1 & H2 & H3);
      [lia | lia |].
    now eexists _, _, _. }
  split; [|exact G].
  destruct (calculateErrorRange text errorMessage) as [r|].
  - destruct (G r eq_refl) as (before & marked & after & -> & Heq & _).
    unfold overlay_text. simpl.
    now rewrite <- Heq, <- !app_assoc.
  - reflexivity.
Qed.

(** ** The span and the reported position *)

(** X2. Outside the unexpected-end case the span lies around the
    position of the message, and the character at that position, when
    there is one, is inside the span. *)
Theorem span_contains_position (text errorMessage : jsstring) (p : Z) (r : Range) :
  extract_position errorMessage = Some p ->
  includes errorMessage UNEXPECTED_END = false ->
  calculateErrorRange text errorMessage = Some r ->
  start r <= p <= end_ r /\ (p < length text -> p < end_ r).
Proof.
  intros He Hinc Hr. pose proof (extract_position_nonneg _ _ He) as Hp0.
  assert (Hp : p <= length text).
  { unfold calculateErrorRange in Hr. rewrite He in Hr.
    destruct (Z.gtb_spec p (length text)); [|assumption].
    rewrite orb_true_r in Hr. discriminate. }
  rewrite (calculateErrorRange_position text errorMessage p He) in Hr by lia.
  rewrite Hinc in Hr.
  destruct ((p <? length text) && delimiters_test (index text p)) eqn:Hd.
  - injection Hr as <-. simpl. lia.
  - rewrite (expansion_not_degenerate text p) in Hr by (auto; lia).
    injection Hr as <-. simpl.
    destruct (start_loop_spec text (Z.to_nat p) p ltac:(lia)) as (Hs & _ & _).
    destruct (end_loop_spec text (Z.to_nat (length text - p)) p
                ltac:(lia) ltac:(lia)) as (Hge & _ & _ & Hstop).
    split; [lia|]. intros Hlt.
    destruct (Z.eq_dec (end_loop text (Z.to_nat (length text - p)) p) p)
      as [Heq|]; [|lia].
    rewrite Heq in Hstop. destruct Hstop as [|Hdel]; [lia|].
    rewrite Hdel in Hd. destruct (Z.ltb_spec p (length text)); [discriminate|lia].
Qed.

Lemma span_contains_position_witness :
  calculateErrorRange text_a_bad (lit "Unexpected token a in JSON at position 7")
  = Some {| start := 6; end_ := 9 |}
  /\ start {| start := 6; end_ := 9 |} <= 7 <= end_ {| start := 6; end_ := 9 |}
  /\ (7 < length text_a_bad -> 7 < end_ {| start := 6; end_ := 9 |}).
Proof.
  split; [reflexivity|].
  apply (span_contains_position text_a_bad
           (lit "Unexpected token a in JSON at position 7") 7
           {| start := 6; end_ := 9 |}); reflexivity.
Defined.

(** ** The caption *)

Lemma getLineAndColumn_None (text : jsstring) (o : Z) :
  getLineAndColumn text o = None <-> o > length text.
Proof.
  unfold getLineAndColumn. destruct (Z.gtb_spec o (length text)).
  - split; [lia | reflexivity].
  - destruct (getLineAndColumn_loop text o (Z.to_nat o) 0 1 0).
    split; [discriminate | lia].
Qed.

Lemma calculateErrorRange_None (text errorMessage : jsstring) (p : Z) :
  extract_position errorMessage = Some p ->
  (calculateErrorRange text errorMessage = None <-> p > length text).
Proof.
  intros He. pose proof (extract_position_nonneg _ _ He) as Hp0.
  destruct (Z.le_gt_cases p (length text)) as [Hle|Hgt].
  - rewrite (calculateErrorRange_position text errorMessage p He) by lia.
    split; [|lia].
    repeat match goal with |- context [if ?c then _ else _] => destruct c end;
      discriminate.
  - split; [lia|]. intros _. unfold calculateErrorRange. rewrite He.
    destruct (Z.gtb_spec p (length text)); [|lia]. now rewrite orb_true_r.
Qed.

(** X3. The caption with line and column and the highlighted span come
    and go together: for every text and message, [ErrorMessage] has a
    location exactly when [calculateErrorRange] has a span. *)
Theorem caption_iff_highlight (text errorMessage : jsstring) :
  locationInfo errorMessage text = None
  <-> calculateErrorRange text errorMessage = None.
Proof.
  unfold locationInfo.
  destruct (extract_position errorMessage) as [p|] eqn:He.
  - now rewrite getLineAndColumn_None, (calculateErrorRange_None text _ p He).
  - unfold calculateErrorRange. rewrite He. tauto.
Qed.

(** What [getLineAndColumn] returns for an offset inside the text. *)
Lemma getLineAndColumn_Some (text : jsstring) (o : Z) :
  0 <= o <= length text ->
  exists ls,
    line_start text o ls
    /\ getLineAndColumn text o
       = Some {| line := 1 + newlines_before text o; column := o - ls + 1 |}.
Proof.
  intros Ho. unfold getLineAndColumn.
  destruct (Z.gtb_spec o (length text)); [lia|].
  destruct (getLineAndColumn_loop_spec text o ltac:(lia) (Z.to_nat o) 0 1 0)
    as (ls & Hloop & Hls); try lia.
  - reflexivity.
  - split; [lia|]. split; [now left | intros j Hj; lia].
  - exists ls. now rewrite Hloop.
Qed.

Lemma line_start_unique (text : jsstring) (o a b : Z) :
  line_start text o a -> line_start text o b -> a = b.
Proof.
  intros (Ha & Hsa & Hna) (Hb & Hsb & Hnb).
  destruct (Z.lt_trichotomy a b) as [Hlt|[Heq|Hgt]]; [|assumption|].
  - destruct Hsb as [|Hsb]; [lia|]. rewrite Hna in Hsb by lia. discriminate.
  - destruct Hsa as [|Hsa]; [lia|]. rewrite Hnb in Hsa by lia. discriminate.
Qed.

(** ** The gutter *)

Lemma split_length (s : jsstring) (c : code_unit) :
  List.length (Builtins.split s c) = S (count_occ N.eq_dec s c).
Proof.
  induction s as [|u s IH]; simpl; [reflexivity|].
  destruct (N.eqb_spec u c) as [->|Hne].
  - destruct (N.eq_dec c c); [|contradiction]. simpl. now rewrite IH.
  - destruct (N.eq_dec u c); [contradiction|].
    destruct (Builtins.split s c); [discriminate | exact IH].
Qed.

Lemma count_occ_firstn_le (l : jsstring) (k : nat) (c : code_unit) :
  (count_occ N.eq_dec (firstn k l) c <= count_occ N.eq_dec l c)%nat.
Proof.
  pose proof (count_occ_app N.eq_dec (firstn k l) (skipn k l) c) as H.
  rewrite firstn_skipn in H. lia.
Qed.

Lemma newlines_before_end (text : jsstring) :
  newlines_before text (length text) = Z.of_nat (count_occ N.eq_dec text LF).
Proof.
  unfold newlines_before, length, array_length.
  now rewrite Nat2Z.id, firstn_all.
Qed.

Lemma gutter_numbers (n k : Z) :
  1 <= n -> (In k (gutter n) <-> 1 <= k <= n).
Proof.
  intros Hn. unfold gutter.
  destruct (Z.eqb_spec n 0); [lia|]. rewrite in_map_iff. split.
  - intros (i & <- & Hi). apply in_seq in Hi. lia.
  - intros Hk. exists (Z.to_nat (k - 1)). split; [lia|]. apply in_seq. lia.
Qed.

(** X4. The line count of the gutter is 1 plus the number of newline
    characters of the text; the gutter shows the numbers from 1 to that
    count (the fallback [|| 1] is never needed); and the line of every
    caption is one of the numbers the gutter shows. *)
Theorem gutter_covers_caption (text : jsstring) :
  lineCount_of text = 1 + Z.of_nat (count_occ N.eq_dec text LF)
  /\ (forall k, In k (gutter (lineCount_of text))
                <-> 1 <= k <= lineCount_of text)
  /\ (forall errorMessage lc,
         locationInfo errorMessage text = Some lc ->
         In (line lc) (gutter (lineCount_of text))).
Proof.
  assert (Hcount : lineCount_of text = 1 + Z.of_nat (count_occ N.eq_dec text LF)).
  { unfold lineCount_of, array_length. rewrite split_length. lia. }
  split; [exact Hcount|]. split.
  - intros k. apply gutter_numbers. lia.
  - intros errorMessage lc. unfold locationInfo.
    destruct (extract_position errorMessage) as [p|] eqn:He; [|discriminate].
    pose proof (extract_position_nonneg _ _ He) as Hp0. intros Hlc.
    assert (Hp : p <= length text).
    { destruct (Z.le_gt_cases p (length text)) as [|Hgt]; [assumption|].
      apply Z.lt_gt, getLineAndColumn_None in Hgt. congruence. }
    destruct (getLineAndColumn_Some text p ltac:(lia)) as (ls & _ & Heq).
    rewrite Heq in Hlc. injection Hlc as <-.
    change (line _) with (1 + newlines_before text p).
    apply gutter_numbers; [lia|]. rewrite Hcount.
    unfold newlines_before.
    pose proof (count_occ_firstn_le text (Z.to_nat p) LF). lia.
Qed.

(** ** The unexpected-end span *)

Lemma lastIndexOf_from_spec (s : jsstring) (c : code_unit) :
  forall i, 0 <= i ->
    (lastIndexOf_from s c i = -1 /\ ~ In c s)
    \/ (i <= lastIndexOf_from s c i
        /\ nth_error s (Z.to_nat (lastIndexOf_from s c i - i)) = Some c
        /\ forall j, (Z.to_nat (lastIndexOf_from s c i - i) < j)%nat ->
                     nth_error s j <> Some c).
Proof.
  induction s as [|u s IH]; intros i Hi; simpl lastIndexOf_from.
  - left. split; [reflexivity | intros []].
  - destruct (IH (i + 1) ltac:(lia)) as [[Hr Hnot]|(Hr & Hnth & Hafter)].
    + rewrite Hr. simpl. destruct (N.eqb_spec u c) as [->|Hne].
      * right. split; [lia|]. rewrite Z.sub_diag. split; [reflexivity|].
        intros [|j] Hj; [lia|]. simpl. intros Hin.
        apply nth_error_In in Hin. contradiction.
      * left. split; [reflexivity|]. intros [H|H]; [congruence | contradiction].
    + destruct (Z.gtb_spec (lastIndexOf_from s c (i + 1)) (-1)); [|lia].
      right. split; [lia|].
      replace (Z.to_nat (lastIndexOf_from s c (i + 1) - i))
        with (S (Z.to_nat (lastIndexOf_from s c (i + 1) - (i + 1)))) by lia.
      split; [exact Hnth|]. intros [|j] Hj; [lia|]. simpl. apply Hafter. lia.
Qed.

(** The start of the unexpected-end span is the start of the last
    line. *)
Lemma last_line_start (text : jsstring) :
  line_start text (length text)
    (if lastIndexOf text LF >? -1 then lastIndexOf text LF + 1 else 0).
Proof.
  unfold lastIndexOf. pose proof (length_nonneg text) as Hlen.
  destruct (lastIndexOf_from_range text LF 0 ltac:(lia)) as [Hm|Hrange];
    destruct (lastIndexOf_from_spec text LF 0 ltac:(lia))
      as [[Hr Hnot]|(Hr & Hnth & Hafter)]; try lia.
  - rewrite Hr. simpl. split; [lia|]. split; [now left|].
    intros i Hi. rewrite index_nth by lia. unfold is_char.
    destruct (nth_error text (Z.to_nat i)) as [u|] eqn:Hu; [|reflexivity].
    apply N.eqb_neq. intros ->. apply nth_error_In in Hu. contradiction.
  - rewrite Z.sub_0_r in *.
    destruct (Z.gtb_spec (lastIndexOf_from text LF 0) (-1)); [|lia].
    split; [lia|]. split.
    + right. replace (lastIndexOf_from text LF 0 + 1 - 1)
        with (lastIndexOf_from text LF 0) by lia.
      rewrite index_nth by lia. rewrite Hnth. reflexivity.
    + intros i Hi. rewrite index_nth by lia. unfold is_char.
      destruct (nth_error text (Z.to_nat i)) as [u|] eqn:Hu; [|reflexivity].
      apply N.eqb_neq. intros ->. apply (Hafter (Z.to_nat i)); [lia | exact Hu].
Qed.

(** X5. For a message with the unexpected-end phrase and a position in
    range, the span runs from the start of the last line (index 0, or
    just after the last newline) to the end of the text, wherever the
    position is; its start is the line start [getLineAndColumn] uses
    for the end of the text, whose line is the last line of the
    gutter. *)
Theorem unexpected_end_last_line (text errorMessage : jsstring) (p : Z) :
  includes errorMessage UNEXPECTED_END = true ->
  extract_position errorMessage = Some p ->
  p <= length text ->
  exists s,
    calculateErrorRange text errorMessage
    = Some {| start := s; end_ := length text |}
    /\ line_start text (length text) s
    /\ getLineAndColumn text (length text)
       = Some {| line := lineCount_of text; column := length text - s + 1 |}.
Proof.
  intros Hinc He Hp. pose proof (extract_position_nonneg _ _ He) as Hp0.
  pose proof (length_nonneg text) as Hlen.
  exists (if lastIndexOf text LF >? -1 then lastIndexOf text LF + 1 else 0).
  split; [|split].
  - rewrite (calculateErrorRange_position text errorMessage p He) by lia.
    now rewrite Hinc.
  - apply last_line_start.
  - destruct (getLineAndColumn_Some text (length text) ltac:(lia))
      as (ls & Hls & Heq).
    rewrite Heq, (line_start_unique _ _ _ _ Hls (last_line_start text)).
    f_equal. f_equal. rewrite newlines_before_end.
    unfold lineCount_of, array_length. rewrite split_length. lia.
Qed.

Lemma unexpected_end_last_line_witness :
  exists s,
    calculateErrorRange text_two_lines
      (lit "Unexpected end of JSON input at position 1")
    = Some {| start := s; end_ := length text_two_lines |}
    /\ line_start text_two_lines (length text_two_lines) s
    /\ getLineAndColumn text_two_lines (length text_two_lines)
       = Some {| line := lineCount_of text_two_lines;
                 column := length text_two_lines - s + 1 |}.
Proof.
  apply (unexpected_end_last_line text_two_lines
           (lit "Unexpected end of JSON input at position 1") 1).
  - reflexivity.
  - reflexivity.
  - vm_compute. discriminate.
Defined.

(** ** Offsets and line/column pairs *)

Lemma newlines_before_mono (text : jsstring) (a : Z) :
  0 <= a ->
  forall k : nat,
    a + Z.of_nat k <= length text ->
    newlines_before text a <= newlines_before text (a + Z.of_nat k)
    /\ (newlines_before text a = newlines_before text (a + Z.of_nat k) ->
        no_newline_in text a (a + Z.of_nat k)).
Proof.
  intros Ha. induction k as [|k IH]; intros Hk.
  - rewrite Z.add_0_r. split; [lia | intros _ i Hi; lia].
  - destruct IH as [Hle Hno]; [lia|].
    replace (a + Z.of_nat (S k)) with (a + Z.of_nat k + 1) by lia.
    rewrite newlines_before_succ by lia.
    destruct (is_char (index text (a + Z.of_nat k)) LF) eqn:Hc.
    + split; [lia | intros Heq; lia].
    + rewrite Z.add_0_r. split; [exact Hle|].
      intros Heq i Hi. destruct (Z.eq_dec i (a + Z.of_nat k)) as [->|];
        [exact Hc | apply (Hno Heq); lia].
Qed.

(** X6. [getLineAndColumn] keeps the order of offsets: a later offset
    of the text is on a later line, or on the same line at a greater
    column.  So two different offsets never get the same line and
    column. *)
Theorem getLineAndColumn_order (text : jsstring) (o1 o2 : Z) :
  0 <= o1 < o2 -> o2 <= length text ->
  exists l1 c1 l2 c2,
    getLineAndColumn text o1 = Some {| line := l1; column := c1 |}
    /\ getLineAndColumn text o2 = Some {| line := l2; column := c2 |}
    /\ (l1 < l2 \/ (l1 = l2 /\ c1 < c2)).
Proof.
  intros Ho Hlen.
  destruct (getLineAndColumn_Some text o1 ltac:(lia)) as (ls1 & Hls1 & H1).
  destruct (getLineAndColumn_Some text o2 ltac:(lia)) as (ls2 & Hls2 & H2).
  eexists _, _, _, _. split; [exact H1|]. split; [exact H2|].
  destruct (newlines_before_mono text o1 ltac:(lia) (Z.to_nat (o2 - o1)))
    as [Hle Hno].
  { lia. }
  replace (o1 + Z.of_nat (Z.to_nat (o2 - o1))) with o2 in * by lia.
  destruct (Z.eq_dec (newlines_before text o1) (newlines_before text o2))
    as [Heq|Hne]; [right | left; lia].
  split; [lia|]. specialize (Hno Heq).
  destruct Hls2 as (Hr2 & Hs2 & Hn2).
  assert (Hin : ls2 <= o1).
  { destruct (Z.le_gt_cases ls2 o1) as [|Hgt]; [assumption|].
    destruct Hs2 as [|Hs2]; [lia|]. rewrite Hno in Hs2 by lia. discriminate. }
  assert (Hls1' : line_start text o1 ls2).
  { split; [lia|]. split; [exact Hs2|]. intros i Hi. apply Hn2. lia. }
  rewrite (line_start_unique _ _ _ _ Hls1 Hls1'). lia.
Qed.

Lemma getLineAndColumn_order_witness :
  exists l1 c1 l2 c2,
    getLineAndColumn text_two_lines 2 = Some {| line := l1; column := c1 |}
    /\ getLineAndColumn text_two_lines 3 = Some {| line := l2; column := c2 |}
    /\ (l1 < l2 \/ (l1 = l2 /\ c1 < c2)).
Proof.
  apply (getLineAndColumn_order text_two_lines 2 3); [lia|].
  vm_compute. discriminate.
Defined.

(** ** Which position a message carries *)

Lemma span_digits_app (ds post : jsstring) :
  Forall (fun u => is_digit u = true) ds ->
  no_leading_digit post ->
  span_digits (ds ++ post) = (ds, post).
Proof.
  intros Hds Hpost. induction Hds as [|u ds Hu _ IH]; cbn [app span_digits].
  - destruct post as [|v post]; [reflexivity|]. cbn [span_digits].
    unfold no_leading_digit in Hpost. now rewrite Hpost.
  - now rewrite Hu, IH.
Qed.

Lemma span_digits_all (ds : jsstring) :
  Forall (fun u => is_digit u = true) ds -> fst (span_digits ds) = ds.
Proof.
  intros Hds. rewrite <- (app_nil_r ds) at 1.
  now rewrite (span_digits_app ds [] Hds I).
Qed.

Lemma app_eq_prefix {A : Type} (a b c d : list A) :
  a ++ b = c ++ d -> (List.length c <= List.length a)%nat ->
  exists e, a = c ++ e.
Proof.
  revert c. induction a as [|x a IH]; intros [|y c] Heq Hlen; simpl in *.
  - now exists [].
  - lia.
  - now exists (x :: a).
  - injection Heq as -> Heq. destruct (IH c Heq ltac:(lia)) as [e ->].
    now exists e.
Qed.

Lemma match_here_Some_form (s group1 : jsstring) :
  match_here s = Some group1 ->
  exists d post, s = AT_POSITION ++ d :: post /\ is_digit d = true.
Proof.
  unfold match_here.
  destruct (strip_prefix s AT_POSITION) as [rest|] eqn:E; [|discriminate].
  apply strip_prefix_Some in E. subst s.
  pose proof (span_digits_nil rest) as Hnil.
  destruct (fst (span_digits rest)); [discriminate|]. intros _.
  destruct rest as [|d post].
  - destruct Hnil as [_ Hnil]. now specialize (Hnil I).
  - exists d, post. split; [reflexivity|].
    destruct (is_digit d); [reflexivity|].
    destruct Hnil as [_ Hnil]. now specialize (Hnil eq_refl).
Qed.

(** No match starts inside [pre] when [pre] followed by the literal
    holds no match. *)
Lemma match_position_skip (pre rest : jsstring) :
  ~ has_position_pattern (pre ++ AT_POSITION) ->
  match_position (pre ++ AT_POSITION ++ rest)
  = match_position (AT_POSITION ++ rest).
Proof.
  induction pre as [|c pre IH]; intros Hno; [reflexivity|].
  assert (Hno' : ~ has_position_pattern (pre ++ AT_POSITION)).
  { intros H. apply Hno. simpl. apply has_position_pattern_cons. now right. }
  change ((c :: pre) ++ AT_POSITION ++ rest)
    with (c :: pre ++ AT_POSITION ++ rest).
  cbn [match_position].
  destruct (match_here (c :: pre ++ AT_POSITION ++ rest)) as [g|] eqn:Hm;
    [|now apply IH].
  exfalso. apply Hno.
  destruct (match_here_Some_form _ _ Hm) as (d & post & Heq & Hd).
  assert (Heq' : ((c :: pre) ++ AT_POSITION) ++ rest
                 = (AT_POSITION ++ [d]) ++ post)
    by (rewrite <- !app_assoc; exact Heq).
  apply app_eq_prefix in Heq' as [e He].
  - exists [], d, e. split; [|exact Hd].
    etransitivity; [exact He|]. now rewrite <- app_assoc.
  - rewrite !length_app. simpl. lia.
Qed.

Lemma match_position_here (s group1 : jsstring) :
  match_here s = Some group1 -> match_position s = Some group1.
Proof. intros H. destruct s; cbn [match_position]; now rewrite H. Qed.

(** X7. The position of a message is read at the first place where the
    literal is followed by a digit, and it is the value of the whole run
    of digits there: earlier occurrences of the literal without a digit
    and whatever follows the digits do not count.  This is for digits
    that denote a number below 2^53, which [parseInt] returns as it
    is. *)
Theorem extract_position_first_match (pre digits post : jsstring) :
  ~ has_position_pattern (pre ++ AT_POSITION) ->
  digits <> [] ->
  Forall (fun u => is_digit u = true) digits ->
  no_leading_digit post ->
  decimal_value digits < 2 ^ 53 ->
  extract_position (pre ++ AT_POSITION ++ digits ++ post)
  = Some (decimal_value digits)
  /\ 0 <= decimal_value digits.
Proof.
  intros Hpre Hne Hdigits Hpost _.
  assert (Hm : match_position (pre ++ AT_POSITION ++ digits ++ post)
               = Some digits).
  { rewrite match_position_skip by assumption. apply match_position_here.
    unfold match_here.
    assert (Hs : strip_prefix (AT_POSITION ++ digits ++ post) AT_POSITION
                 = Some (digits ++ post)) by now apply strip_prefix_Some.
    rewrite Hs, (span_digits_app digits post Hdigits Hpost). simpl fst.
    destruct digits; [contradiction | reflexivity]. }
  assert (Hv : parseInt10 digits = decimal_value digits)
    by (unfold parseInt10; now rewrite span_digits_all).
  split.
  - unfold extract_position. rewrite Hm.
    destruct digits; [contradiction|]. now rewrite Hv.
  - rewrite <- Hv. apply parseInt10_nonneg.
Qed.

Lemma extract_position_first_match_witness :
  extract_position message_two_positions = Some 12.
Proof.
  apply (extract_position_first_match
           (lit "no digits at position x; Bad token ") (lit "12") (lit "a")).
  - apply extract_position_None. reflexivity.
  - discriminate.
  - repeat constructor.
  - reflexivity.
  - reflexivity.
Defined.

(** ** More on [JsonNode] *)

Lemma collapsible_iff_nonempty (v : value) (d : Z) (c : bool) :
  collapsible (JsonNode v d c) = nonempty_container v.
Proof.
  destruct (nonempty_container v) eqn:E; [now apply collapsible_nonempty|].
  destruct v as [| | | |[|item items]|[|kv props]|]; try discriminate;
    reflexivity.
Qed.

Lemma click_fixed (path : list nat) :
  forall x, (forall y, subtree_at path x = Some y -> click [] y = y) ->
            click path x = x.
Proof.
  induction path as [|i path IH]; intros [v d c ch] H.
  - now apply H.
  - cbn [click]. f_equal. apply update_nth_fixed. intros z Hz.
    apply IH. intros y Hy. apply H. cbn [subtree_at instance_children].
    now rewrite Hz.
Qed.

(** X8. A click changes the tree exactly when its path leads to a
    rendered node that shows a List or Record with at least one
    element.  A click on a leaf, on an empty container or on a place
    where nothing is rendered changes nothing, in whatever state the
    nodes are. *)
Theorem click_changes_iff (path : list nat) (x : instance) :
  click path x <> x
  <-> exists y, subtree_at path x = Some y
                /\ nonempty_container (fst (instance_props y)) = true.
Proof.
  split.
  - intros Hne.
    destruct (subtree_at path x) as [y|] eqn:Hy.
    + exists y. split; [reflexivity|].
      destruct (nonempty_container (fst (instance_props y))) eqn:E;
        [reflexivity|].
      exfalso. apply Hne, click_fixed. intros y' Hy'.
      assert (y' = y) by congruence. subst y'.
      destruct y as [v d c ch]. cbn [click instance_element].
      simpl in E. now rewrite collapsible_iff_nonempty, E.
    + exfalso. apply Hne, click_fixed. intros y' Hy'. congruence.
  - intros (y & Hy & Hc) Heq.
    pose proof (subtree_at_click path x) as Hclick.
    rewrite Heq, Hy in Hclick. cbn [option_map] in Hclick.
    injection Hclick as Hclick.
    destruct y as [v d c ch]. cbn [click instance_element] in Hclick.
    simpl in Hc. rewrite collapsible_iff_nonempty, Hc in Hclick.
    cbn [toggleCollapse] in Hclick. injection Hclick as Hflag _.
    now destruct c.
Qed.

(** X9. For a List or Record with at least one element, the count in
    the collapsed summary is the number of rows of the expanded form,
    which is the number of items or properties; the summary says items
    for a List and keys for a Record, between the same brackets as the
    expanded form. *)
Theorem collapsed_summary_count (v : value) (d : Z) :
  nonempty_container v = true ->
  exists rows,
    JsonNode v d false
    = EExpanded (if Array_isArray v then lit "[" else lit "{") rows
                (if Array_isArray v then lit "]" else lit "}")
    /\ JsonNode v d true
       = ECollapsed (if Array_isArray v then lit "[" else lit "{")
                    (if Array_isArray v then lit "]" else lit "}")
                    (Z.of_nat (List.length rows))
                    (if Array_isArray v then lit "items" else lit "keys")
    /\ List.length rows = entries v
    /\ (1 <= List.length rows)%nat.
Proof.
  destruct v as [| | | |[|item items]|[|kv props]|]; try discriminate; intros _.
  - eexists. split; [apply JsonNode_array_expanded; discriminate|].
    rewrite map_index_length. split; [reflexivity|].
    split; [reflexivity | simpl; lia].
  - eexists. split; [apply JsonNode_object_expanded; discriminate|].
    rewrite map_index_length, Object_keys_length.
    split; [|split; [reflexivity | simpl; lia]].
    unfold JsonNode. simpl Array_isArray. cbv iota.
    unfold array_length. rewrite Object_keys_length. reflexivity.
Qed.

Lemma collapsed_summary_count_witness :
  exists rows,
    JsonNode record_b1 3 false = EExpanded (lit "{") rows (lit "}")
    /\ JsonNode record_b1 3 true
       = ECollapsed (lit "{") (lit "}") (Z.of_nat (List.length rows)) (lit "keys")
    /\ List.length rows = entries record_b1
    /\ (1 <= List.length rows)%nat.
Proof.
  exact (collapsed_summary_count record_b1 3 eq_refl).
Defined.

Lemma mount_unfold (v : value) (d : Z) :
  mount v d
  = Instance v d (useState_initial d)
      (map (fun p => mount (fst p) (snd p))
           (child_props (JsonNode v d (useState_initial d)))).
Proof.
  pose proof (mount_children v d) as Hch. unfold fresh_children in Hch.
  unfold mount in *. rewrite mount_upto_element in Hch.
  destruct (height v); cbn [mount_upto instance_children] in *;
    now rewrite Hch.
Qed.

Lemma child_props_length (v : value) (d : Z) :
  List.length (child_props (JsonNode v d false)) = entries v.
Proof.
  rewrite child_props_expanded.
  destruct v; try reflexivity; rewrite length_map; [reflexivity|].
  apply Object_keys_length.
Qed.

(** X10. The first render creates the root and one node for each of
    its items or properties, and nothing below them, however deep the
    value is. *)
Theorem JsonViewer_first_level (data : value) :
  instance_count (JsonViewer data) = S (entries data)
  /\ Forall (fun y => instance_children y = [] /\ is_collapsed y = true)
            (instance_children (JsonViewer data)).
Proof.
  unfold JsonViewer. rewrite mount_unfold.
  change (useState_initial 0) with false.
  cbn [instance_count instance_children].
  rewrite <- (child_props_length data 0).
  assert (H : Forall (fun p => mount (fst p) (snd p)
                               = Instance (fst p) (snd p) true [])
                     (child_props (JsonNode data 0 false))).
  { apply Forall_forall. intros p Hp. apply child_props_depth in Hp.
    unfold mount. apply mount_upto_collapsed. lia. }
  induction H as [|p l Hp _ IH]; cbn [map fold_right List.length].
  - split; [reflexivity | constructor].
  - destruct IH as [IHc IHf]. rewrite Hp. split.
    + cbn [instance_count fold_right]. injection IHc as IHc. now rewrite IHc.
    + constructor; [now split | exact IHf].
Qed.

Lemma property_value_lookup (props : list (jsstring * value)) (key : jsstring) :
  In key (map fst props) -> property_value props key = Some (lookup props key).
Proof.
  unfold property_value.
  induction props as [|[k v] props IH]; cbn [map fst In find lookup]; [tauto|].
  destruct (list_eq_dec N.eq_dec k key) as [->|Hne]; [reflexivity|].
  intros [H|H]; [contradiction | now apply IH].
Qed.

(** The nested elements of an expanded render are the children of the
    value, in order, one level deeper. *)
Lemma child_props_child_value (v : value) (d : Z) (i : nat) :
  nth_error (child_props (JsonNode v d false)) i
  = option_map (fun w => (w, d + 1)) (child_value v i).
Proof.
  rewrite child_props_expanded.
  destruct v as [| | | |items|props|]; cbn [child_value];
    try (destruct i; reflexivity).
  - apply nth_error_map.
  - rewrite nth_error_map.
    destruct (nth_error (Object_keys (VObject props)) i) as [key|] eqn:Hk;
      [|reflexivity].
    cbn [option_map]. rewrite property_value_lookup; [reflexivity|].
    apply (Permutation_in _ (Object_keys_perm props)).
    eapply nth_error_In; eassumption.
Qed.

Lemma subtree_at_value (path : list nat) :
  forall x y,
    consistent x -> subtree_at path x = Some y ->
    value_at (fst (instance_props x)) path = Some (fst (instance_props y))
    /\ snd (instance_props y)
       = snd (instance_props x) + Z.of_nat (List.length path).
Proof.
  induction path as [|i path IH]; intros [v d c ch] y Hx;
    cbn [subtree_at instance_children value_at].
  - intros [= <-]. split; [reflexivity | simpl; lia].
  - destruct (nth_error ch i) as [z|] eqn:Hz; [|discriminate]. intros Hy.
    apply consistent_unfold in Hx as [Hprops Hch].
    assert (Hzc : consistent z)
      by (rewrite Forall_forall in Hch; apply Hch; eapply nth_error_In; eauto).
    destruct (IH z y Hzc Hy) as [Hv Hd].
    apply (map_nth_error instance_props) in Hz. rewrite Hprops in Hz.
    destruct c; [rewrite child_props_collapsed in Hz; destruct i; discriminate|].
    rewrite child_props_child_value in Hz. cbn [instance_props fst snd].
    destruct (child_value v i) as [w|]; [|discriminate].
    injection Hz as Hz. rewrite <- Hz in Hv, Hd. cbn [fst snd] in Hv, Hd.
    split; [exact Hv|]. rewrite Hd. cbn [List.length]. lia.
Qed.

Lemma reachable_root_props (data : value) (x : instance) :
  reachable data x -> instance_props x = (data, 0).
Proof.
  induction 1 as [|x path _ IH].
  - apply mount_upto_props.
  - now rewrite click_props.
Qed.

(** X11. Clicks change what is visible, never what a node is about: in
    every tree reached by clicks from the first render, the node at a
    path shows the sub-value of the data found on the data by the same
    child numbers (the item at that index of a List, the value of the
    property at that position of [Object.keys] of a Record), at the
    depth that is the length of the path. *)
Theorem rendered_node_shows_subvalue (data : value) (x y : instance)
    (path : list nat) :
  reachable data x ->
  subtree_at path x = Some y ->
  value_at data path = Some (fst (instance_props y))
  /\ snd (instance_props y) = Z.of_nat (List.length path).
Proof.
  intros Hreach Hy.
  destruct (reachable_invariant data x Hreach) as [Hc _].
  destruct (subtree_at_value path x y Hc Hy) as [Hv Hd].
  rewrite (reachable_root_props data x Hreach) in Hv, Hd.
  split; [exact Hv | simpl in Hd; lia].
Qed.

Lemma rendered_node_shows_subvalue_witness :
  value_at nested_list [0%nat; 0%nat]
  = Some (fst (instance_props (Instance (VNumber 1%float) 2 true [])))
  /\ snd (instance_props (Instance (VNumber 1%float) 2 true []))
     = Z.of_nat (List.length [0%nat; 0%nat]).
Proof.
  apply (rendered_node_shows_subvalue nested_list inner_expanded
           (Instance (VNumber 1%float) 2 true []) [0%nat; 0%nat]).
  - apply reachable_click, reachable_mount.
  - reflexivity.
Defined.

(** ** The controller *)

Lemma trimStart_nil (s : jsstring) :
  Builtins.trimStart s = [] <-> forallb is_space s = true.
Proof.
  induction s as [|u s IH]; simpl; [tauto|].
  destruct (is_space u); simpl; [exact IH | split; discriminate].
Qed.

Lemma trimStart_head (s : jsstring) :
  match Builtins.trimStart s with
  | [] => True
  | u :: _ => is_space u = false
  end.
Proof.
  induction s as [|u s IH]; simpl; [trivial|].
  destruct (is_space u) eqn:E; [exact IH | exact E].
Qed.

(** [trim] leaves nothing exactly of the strings made of white space. *)
Lemma trim_nil (s : jsstring) :
  Builtins.trim s = [] <-> forallb is_space s = true.
Proof.
  unfold Builtins.trim, Builtins.trimEnd. split.
  - intros H. apply trimStart_nil.
    assert (Hr : Builtins.trimStart (rev (Builtins.trimStart s)) = [])
      by (apply (f_equal (@rev code_unit)) in H;
          now rewrite rev_involutive in H).
    apply trimStart_nil in Hr. pose proof (trimStart_head s) as Hh.
    destruct (Builtins.trimStart s) as [|u t]; [reflexivity|].
    rewrite forallb_forall in Hr.
    rewrite (Hr u) in Hh; [discriminate|]. apply in_rev. rewrite rev_involutive.
    now left.
  - intros H. apply trimStart_nil in H. now rewrite H.
Qed.

Lemma locationInfo_None (text errorMessage : jsstring) :
  locationInfo errorMessage text = None
  <-> calculateErrorRange text errorMessage = None.
Proof.
  unfold locationInfo.
  destruct (extract_position errorMessage) as [p|] eqn:He.
  - now rewrite getLineAndColumn_None, (calculateErrorRange_None text _ p He).
  - unfold calculateErrorRange. rewrite He. tauto.
Qed.

(** X12. Input made of white space only (the empty input too) clears
    everything without the parser being asked: no value, no error, no
    span; the panel shows the placeholder, there is no footer and the
    overlay shows the input unmarked. *)
Theorem blank_input_clears (JSON_parse : jsstring -> parse_outcome)
    (inputText : jsstring) :
  forallb is_space inputText = true ->
  parse_effect JSON_parse inputText
  = {| parsedJson := VNull; error := None; errorRange := None |}
  /\ output_panel (parse_effect JSON_parse inputText) = [ShowPlaceholder]
  /\ footer (parse_effect JSON_parse inputText) inputText = None
  /\ highlighter inputText (errorRange (parse_effect JSON_parse inputText))
     = [Plain inputText; Plain [LF]].
Proof.
  intros H. apply trim_nil in H. unfold parse_effect. rewrite H.
  repeat split.
Qed.

Lemma blank_input_clears_witness :
  parse_effect (throwing_parser (lit "Unexpected end of JSON input"))
               (lit "   ")
  = {| parsedJson := VNull; error := None; errorRange := None |}
  /\ output_panel (parse_effect
                     (throwing_parser (lit "Unexpected end of JSON input"))
                     (lit "   ")) = [ShowPlaceholder]
  /\ footer (parse_effect
               (throwing_parser (lit "Unexpected end of JSON input"))
               (lit "   ")) (lit "   ") = None
  /\ highlighter (lit "   ")
       (errorRange (parse_effect
                      (throwing_parser (lit "Unexpected end of JSON input"))
                      (lit "   ")))
     = [Plain (lit "   "); Plain [LF]].
Proof.
  exact (blank_input_clears
           (throwing_parser (lit "Unexpected end of JSON input"))
           (lit "   ") eq_refl).
Defined.

(** X13. Whatever the parser does and whatever the input, the output
    panel shows exactly one of the tree, the placeholder and the
    invalid-input notice.  The notice comes with the footer.  The tree is
    shown only for a value the parser returned that is not [null]; a
    document that parses to [null] shows the placeholder. *)
Theorem output_panel_exclusive (JSON_parse : jsstring -> parse_outcome)
    (inputText : jsstring) :
  (exists s, output_panel (parse_effect JSON_parse inputText) = [s])
  /\ (In ShowInvalid (output_panel (parse_effect JSON_parse inputText))
      <-> footer (parse_effect JSON_parse inputText) inputText <> None)
  /\ (forall x,
         In (ShowTree x) (output_panel (parse_effect JSON_parse inputText)) ->
         forallb is_space inputText = false
         /\ exists json, JSON_parse inputText = Returns json
                         /\ is_null json = false
                         /\ x = JsonViewer json)
  /\ (JSON_parse inputText = Returns VNull ->
      output_panel (parse_effect JSON_parse inputText) = [ShowPlaceholder]).
Proof.
  pose proof (trim_nil inputText) as Htrim. unfold parse_effect.
  destruct (Builtins.trim inputText) as [|u t] eqn:Ht.
  - split; [now exists ShowPlaceholder|]. split.
    + simpl. split; [intros [H|[]]; discriminate | intros H; now elim H].
    + split; [|reflexivity]. intros x [H|[]]. discriminate.
  - assert (Hblank : forallb is_space inputText = false).
    { destruct (forallb is_space inputText); [|reflexivity].
      destruct Htrim as [_ Htrim]. now specialize (Htrim eq_refl). }
    destruct (JSON_parse inputText) as [json|message|] eqn:Hp.
    + unfold output_panel, footer. cbn [parsedJson error truthy].
      destruct (is_null json) eqn:Hn; cbn [negb andb app].
      * split; [now exists ShowPlaceholder|]. split.
        -- split; [intros [H|[]]; discriminate | intros H; now elim H].
        -- split; [intros x [H|[]]; discriminate | reflexivity].
      * split; [now eexists|]. split.
        -- split; [intros [H|[]]; discriminate | intros H; now elim H].
        -- split.
           ++ intros x [H|[]]. injection H as <-. split; [exact Hblank|].
              now exists json.
           ++ intros H. injection H as ->. discriminate.
    + unfold output_panel, footer. cbn [parsedJson error is_null negb andb app].
      destruct message as [|c m]; cbn [truthy negb app].
      * split; [now exists ShowPlaceholder|]. split.
        -- split; [intros [H|[]]; discriminate | intros H; now elim H].
        -- split; [intros x [H|[]]; discriminate | discriminate].
      * split; [now exists ShowInvalid|]. split.
        -- split; [discriminate | intros _; now left].
        -- split; [intros x [H|[]]; discriminate | discriminate].
    + split; [now exists ShowInvalid|]. split.
      * split; [discriminate | intros _; now left].
      * split; [intros x [H|[]]; discriminate | discriminate].
Qed.

Lemma highlighter_text (text : jsstring) (r : Range) :
  0 <= start r <= end_ r -> end_ r <= length text ->
  overlay_text (highlighter text (Some r)) = text ++ [LF].
Proof.
  intros Hs He.
  destruct (substring_three_way text (start r) (end_ r) Hs He) as (H & _ & _).
  unfold overlay_text, highlighter. cbn [app map List.concat segment_text].
  rewrite <- H at 4. now rewrite <- !app_assoc.
Qed.

(** X14. After the parse effect, whatever the parser does: the overlay
    shows the input text itself; a span is only there together with an error, no
    value, the invalid-input notice and a footer whose caption has a
    line and column, and it lies inside the input; a caption with line
    and column is only there together with a span; and a value that is
    not [null] comes with no error and no span. *)
Theorem parse_effect_coherent (JSON_parse : jsstring -> parse_outcome)
    (inputText : jsstring) :
  overlay_text (highlighter inputText
                  (errorRange (parse_effect JSON_parse inputText)))
  = inputText ++ [LF]
  /\ (forall r,
         errorRange (parse_effect JSON_parse inputText) = Some r ->
         0 <= start r <= end_ r /\ end_ r <= length inputText
         /\ parsedJson (parse_effect JSON_parse inputText) = VNull
         /\ output_panel (parse_effect JSON_parse inputText) = [ShowInvalid]
         /\ exists message lc,
             JSON_parse inputText = ThrowsError message
             /\ footer (parse_effect JSON_parse inputText) inputText
                = Some (message, Some lc))
  /\ (forall message lc,
         footer (parse_effect JSON_parse inputText) inputText
         = Some (message, Some lc) ->
         errorRange (parse_effect JSON_parse inputText) <> None)
  /\ (parsedJson (parse_effect JSON_parse inputText) <> VNull ->
      error (parse_effect JSON_parse inputText) = None
      /\ errorRange (parse_effect JSON_parse inputText) = None).
Proof.
  unfold parse_effect.
  destruct (Builtins.trim inputText) as [|u t].
  { split; [reflexivity|]. split; [discriminate|].
    split; [discriminate | intros H; now elim H]. }
  destruct (JSON_parse inputText) as [json|message|].
  - split; [reflexivity|]. split; [discriminate|].
    split; [discriminate | now split].
  - cbn [errorRange parsedJson error].
    pose proof (locationInfo_None inputText message) as Hloc.
    split; [|split; [|split]].
    + destruct (calculateErrorRange inputText message) as [r|] eqn:Hr;
        [|reflexivity].
      apply calculateErrorRange_well_formed in Hr as [Hs He].
      now apply highlighter_text.
    + intros r Hr.
      destruct (calculateErrorRange_well_formed _ _ _ Hr) as [Hs He].
      split; [exact Hs|]. split; [exact He|]. split; [reflexivity|].
      destruct message as [|c m]; [discriminate|].
      split; [reflexivity|].
      destruct (locationInfo (c :: m) inputText) as [lc|] eqn:Hlc.
      * exists (c :: m), lc. split; [reflexivity|].
        unfold footer. cbn [error]. now rewrite Hlc.
      * destruct Hloc as [Hloc _]. specialize (Hloc eq_refl). congruence.
    + intros m lc. unfold footer. cbn [error].
      destruct message as [|c message]; [discriminate|].
      intros [= _ Hlc] Hnone. apply Hloc in Hnone. congruence.
    + intros H. now elim H.
  - split; [reflexivity|]. split; [discriminate|].
    split; [|intros H; now elim H].
    intros m lc. unfold footer. cbn [error]. discriminate.
Qed.

Lemma parse_effect_coherent_witness :
  errorRange (parse_effect
                (throwing_parser (lit "Unexpected token b in JSON at position 6"))
                text_a_bad)
  = Some {| start := 6; end_ := 9 |}
  /\ output_panel (parse_effect
                     (throwing_parser
                        (lit "Unexpected token b in JSON at position 6"))
                     text_a_bad) = [ShowInvalid]
  /\ errorRange (parse_effect
                   (throwing_parser
                      (lit "Unexpected token b in JSON at position 6"))
                   text_a_bad) <> None.
Proof.
  destruct (parse_effect_coherent
              (throwing_parser (lit "Unexpected token b in JSON at position 6"))
              text_a_bad) as (_ & Hspan & Hcap & _).
  split; [reflexivity|]. split.
  - exact (proj1 (proj2 (proj2 (proj2
             (Hspan {| start := 6; end_ := 9 |} eq_refl))))).
  - exact (Hcap (lit "Unexpected token b in JSON at position 6")
                {| line := 1; column := 7 |} eq_refl).
Defined.

(** ** Line and column against the lines of the gutter *)

Lemma index_cons (u : code_unit) (s : jsstring) (i : Z) :
  1 <= i -> index (u :: s) i = index s (i - 1).
Proof.
  intros Hi. rewrite !index_nth by lia.
  now replace (Z.to_nat i) with (S (Z.to_nat (i - 1))) by lia.
Qed.

Lemma length_cons (u : code_unit) (s : jsstring) :
  length (u :: s) = length s + 1.
Proof. unfold length, array_length. simpl List.length. lia. Qed.

Lemma newlines_before_cons (u : code_unit) (s : jsstring) (o : Z) :
  1 <= o ->
  newlines_before (u :: s) o
  = (if N.eqb u LF then 1 else 0) + newlines_before s (o - 1).
Proof.
  intros Ho. unfold newlines_before.
  replace (Z.to_nat o) with (S (Z.to_nat (o - 1))) by lia.
  cbn [firstn count_occ].
  destruct (N.eq_dec u LF) as [->|Hne].
  - rewrite N.eqb_refl, Nat2Z.inj_succ. unfold Z.succ. apply Z.add_comm.
  - apply N.eqb_neq in Hne. now rewrite Hne.
Qed.

Lemma line_start_cons (u : code_unit) (s : jsstring) (o ls : Z) :
  1 <= o -> line_start (u :: s) o ls ->
  (ls = 0 /\ N.eqb u LF = false /\ line_start s (o - 1) 0)
  \/ (1 <= ls /\ line_start s (o - 1) (ls - 1)
      /\ (ls = 1 -> N.eqb u LF = true)).
Proof.
  intros Ho (Hr & Hs & Hn).
  assert (Htail : forall a, 0 <= a -> no_newline_in (u :: s) (a + 1) o ->
                            no_newline_in s a (o - 1)).
  { intros a Ha H i Hi. specialize (H (i + 1) ltac:(lia)).
    rewrite index_cons in H by lia. now replace (i + 1 - 1) with i in H by lia. }
  destruct (Z.eq_dec ls 0) as [->|Hne].
  - left. split; [reflexivity|]. split.
    + specialize (Hn 0 ltac:(lia)). exact Hn.
    + split; [lia|]. split; [now left|]. apply Htail; [lia|].
      intros i Hi. apply Hn. lia.
  - right. split; [lia|]. destruct Hs as [|Hs]; [contradiction|]. split.
    + split; [lia|]. split.
      * destruct (Z.eq_dec ls 1) as [->|]; [now left|]. right.
        rewrite index_cons in Hs by lia. exact Hs.
      * apply Htail; [lia|]. now replace (ls - 1 + 1) with ls by lia.
    + intros ->. exact Hs.
Qed.

Lemma line_offset_pos (pieces : list jsstring) (k : nat) :
  0 <= line_offset pieces k
  /\ (line_offset pieces k = 0 -> (k < List.length pieces)%nat -> k = O).
Proof.
  revert pieces. induction k as [|k IH]; intros [|piece rest];
    cbn [line_offset List.length]; try (split; [lia | intros; lia]).
  destruct (IH rest) as [H0 _]. pose proof (length_nonneg piece).
  split; [lia | intros; lia].
Qed.

(** The line start and the count of newlines before an offset, read on
    the lines [split] gives. *)
Lemma line_start_split (text : jsstring) :
  forall o ls,
    0 <= o <= length text -> line_start text o ls ->
    exists piece,
      nth_error (Builtins.split text LF) (Z.to_nat (newlines_before text o))
      = Some piece
      /\ o - ls <= length piece
      /\ ls = line_offset (Builtins.split text LF)
                          (Z.to_nat (newlines_before text o)).
Proof.
  induction text as [|u s IH]; intros o ls Ho Hls.
  - change (length []) with 0 in Ho. assert (o = 0) by lia. subst o.
    destruct Hls as (Hr & _). assert (ls = 0) by lia. subst ls.
    exists []. split; [reflexivity|].
    split; [vm_compute; discriminate | reflexivity].
  - destruct (Z.eq_dec o 0) as [->|Hne].
    + destruct Hls as (Hr & _). assert (ls = 0) by lia. subst ls.
      change (newlines_before (u :: s) 0) with 0. change (Z.to_nat 0) with O.
      pose proof (split_length (u :: s) LF) as Hlen.
      destruct (Builtins.split (u :: s) LF) as [|piece rest]; [discriminate|].
      exists piece. pose proof (length_nonneg piece).
      split; [reflexivity|]. split; [lia | reflexivity].
    + rewrite length_cons in Ho.
      rewrite newlines_before_cons by lia.
      assert (Hnb : 0 <= newlines_before s (o - 1))
        by (unfold newlines_before; lia).
      cbn [Builtins.split].
      destruct (line_start_cons u s o ls ltac:(lia) Hls)
        as [(-> & Hu & Hls')|(Hls1 & Hls' & Hone)].
      * rewrite Hu. rewrite Z.add_0_l.
        destruct (IH (o - 1) 0 ltac:(lia) Hls') as (piece & Hnth & Hle & Hoff).
        pose proof (split_length s LF) as Hlen.
        destruct (Builtins.split s LF) as [|piece0 rest]; [discriminate|].
        destruct (line_offset_pos (piece0 :: rest)
                    (Z.to_nat (newlines_before s (o - 1)))) as [_ Hzero].
        assert (Hk : Z.to_nat (newlines_before s (o - 1)) = O).
        { apply Hzero; [lia|]. apply nth_error_Some. congruence. }
        rewrite Hk in *. injection Hnth as <-.
        exists (u :: piece0). rewrite length_cons.
        split; [reflexivity|]. split; [lia | reflexivity].
      * destruct (IH (o - 1) (ls - 1) ltac:(lia) Hls')
          as (piece & Hnth & Hle & Hoff).
        destruct (N.eqb_spec u LF) as [->|Hu].
        -- replace (Z.to_nat (1 + newlines_before s (o - 1)))
             with (S (Z.to_nat (newlines_before s (o - 1)))) by lia.
           exists piece. cbn [nth_error line_offset].
           change (length []) with 0.
           split; [exact Hnth|]. split; lia.
        -- rewrite Z.add_0_l.
           pose proof (split_length s LF) as Hlen.
           destruct (Builtins.split s LF) as [|piece0 rest]; [discriminate|].
           destruct (Z.to_nat (newlines_before s (o - 1))) as [|k] eqn:Hk.
           ++ cbn [line_offset] in Hoff. assert (ls = 1) by lia.
              specialize (Hone H). discriminate.
           ++ exists piece. cbn [nth_error line_offset] in *.
              rewrite length_cons.
              split; [exact Hnth|]. split; lia.
Qed.

(** X15. The line and column of an offset address it on the lines the
    gutter counts: with the text cut at its newlines, the line is the
    number of one of the pieces, the column lies from 1 to one past the
    length of that piece, and the offset is the start of that piece
    (the lengths of the earlier pieces and their newlines) plus the
    column less 1. *)
Theorem getLineAndColumn_on_lines (text : jsstring) (o : Z) :
  0 <= o <= length text ->
  exists l c piece,
    getLineAndColumn text o = Some {| line := l; column := c |}
    /\ 1 <= l
    /\ nth_error (Builtins.split text LF) (Z.to_nat (l - 1)) = Some piece
    /\ 1 <= c <= length piece + 1
    /\ o = line_offset (Builtins.split text LF) (Z.to_nat (l - 1)) + (c - 1).
Proof.
  intros Ho.
  destruct (getLineAndColumn_Some text o Ho) as (ls & Hls & Heq).
  destruct (line_start_split text o ls Ho Hls) as (piece & Hnth & Hle & Hoff).
  assert (Hnb : 0 <= newlines_before text o) by (unfold newlines_before; lia).
  exists (1 + newlines_before text o), (o - ls + 1), piece.
  replace (1 + newlines_before text o - 1) with (newlines_before text o) by lia.
  destruct Hls as (Hr & _).
  split; [exact Heq|]. split; [lia|]. split; [exact Hnth|].
  split; lia.
Qed.

Lemma getLineAndColumn_on_lines_witness :
  exists l c piece,
    getLineAndColumn text_two_lines 4 = Some {| line := l; column := c |}
    /\ 1 <= l
    /\ nth_error (Builtins.split text_two_lines LF) (Z.to_nat (l - 1))
       = Some piece
    /\ 1 <= c <= length piece + 1
    /\ 4 = line_offset (Builtins.split text_two_lines LF) (Z.to_nat (l - 1))
           + (c - 1).
Proof.
  apply (getLineAndColumn_on_lines text_two_lines 4).
  vm_compute. split; discriminate.
Defined.

(** ** Every part of the value can be brought on screen *)

Lemma value_at_app (p q : list nat) :
  forall v, value_at v (p ++ q)
            = match value_at v p with
              | Some w => value_at w q
              | None => None
              end.
Proof.
  induction p as [|i p IH]; intros v; cbn [app value_at]; [reflexivity|].
  destruct (child_value v i); [apply IH | reflexivity].
Qed.

Lemma entries_nonempty (v : value) :
  (1 <= entries v)%nat -> nonempty_container v = true.
Proof.
  destruct v as [| | | |[|item items]|[|kv props]|]; simpl; try lia; reflexivity.
Qed.

Lemma child_value_nonempty (w v : value) (i : nat) :
  child_value w i = Some v -> nonempty_container w = true.
Proof.
  intros Hc. apply entries_nonempty. rewrite <- (child_props_length w 0).
  pose proof (child_props_child_value w 0 i) as H. rewrite Hc in H.
  destruct (child_props (JsonNode w 0 false)); [destruct i; discriminate|].
  simpl. lia.
Qed.

(** An expanded, consistent node has a child for each child of its
    value, showing that child. *)
Lemma expanded_child (w : value) (d : Z) (ch : list instance) (i : nat)
    (v : value) :
  consistent (Instance w d false ch) ->
  child_value w i = Some v ->
  exists z, nth_error ch i = Some z /\ instance_props z = (v, d + 1).
Proof.
  intros Hc Hv. apply consistent_unfold in Hc as [Hprops _].
  assert (H : nth_error (map instance_props ch) i = Some (v, d + 1))
    by now rewrite Hprops, child_props_child_value, Hv.
  rewrite nth_error_map in H.
  destruct (nth_error ch i) as [z|]; [|discriminate].
  exists z. split; [reflexivity | now injection H].
Qed.

Lemma lookup_unique (props : list (jsstring * value)) (key : jsstring)
    (w : value) :
  NoDup (map fst props) -> In (key, w) props -> lookup props key = w.
Proof.
  induction props as [|[k v] props IH]; cbn [map fst In lookup]; [tauto|].
  intros Hnd Hin. inversion Hnd as [|? ? Hk Hnd']; subst.
  destruct (list_eq_dec N.eq_dec k key) as [->|Hne].
  - destruct Hin as [H|H]; [now injection H|].
    exfalso. apply Hk. now apply (in_map fst) in H.
  - destruct Hin as [H|H]; [injection H as H _; contradiction | now apply IH].
Qed.

(** Every sub-value has a path of child numbers. *)
Lemma subvalue_path (v w : value) :
  subvalue v w -> exists path, value_at v path = Some w.
Proof.
  induction 1 as [v|items item w Hin _ [path IH]
                 |props key u w Hnd Hin _ [path IH]].
  - now exists [].
  - apply In_nth_error in Hin as [i Hi]. exists (i :: path).
    cbn [value_at child_value]. now rewrite Hi.
  - assert (Hk : In key (Object_keys (VObject props))).
    { apply (Permutation_in _ (Permutation_sym (Object_keys_perm props))).
      now apply (in_map fst) in Hin. }
    apply In_nth_error in Hk as [i Hi]. exists (i :: path).
    cbn [value_at child_value]. rewrite Hi.
    rewrite property_value_lookup by (now apply (in_map fst) in Hin).
    now rewrite (lookup_unique props key u Hnd Hin).
Qed.

Lemma value_can_be_shown (data : value) (path : list nat) (v : value) :
  value_at data path = Some v ->
  exists x y,
    reachable data x
    /\ subtree_at path x = Some y
    /\ instance_props y = (v, Z.of_nat (List.length path)).
Proof.
  revert v. induction path as [|i path IH] using rev_ind; intros v Hv.
  - injection Hv as <-. exists (JsonViewer data), (JsonViewer data).
    split; [apply reachable_mount|]. split; [reflexivity|].
    apply mount_upto_props.
  - rewrite value_at_app in Hv.
    destruct (value_at data path) as [w|] eqn:Hw; [|discriminate].
    cbn [value_at] in Hv.
    destruct (child_value w i) as [v'|] eqn:Hp; [|discriminate].
    injection Hv as <-.
    destruct (IH w eq_refl) as (x & y & Hreach & Hy & Hprops).
    assert (Hex : exists x' ch,
               reachable data x'
               /\ subtree_at path x'
                  = Some (Instance w (Z.of_nat (List.length path)) false ch)
               /\ consistent (Instance w (Z.of_nat (List.length path)) false ch)).
    { destruct y as [w' d c ch]. injection Hprops as -> ->.
      destruct c.
      - exists (click path x). eexists.
        split; [now apply reachable_click|].
        rewrite subtree_at_click, Hy. cbn [option_map click instance_element].
        rewrite collapsible_iff_nonempty, (child_value_nonempty w v' i Hp).
        cbn [toggleCollapse negb]. split; [reflexivity|].
        apply (toggleCollapse_consistent
                 (Instance w (Z.of_nat (List.length path)) true ch)).
      - exists x, ch. split; [assumption|]. split; [assumption|].
        now apply (subtree_at_invariant path x _ Hy),
                  (reachable_invariant data). }
    destruct Hex as (x' & ch & Hreach' & Hy' & Hc).
    destruct (expanded_child w _ ch i v' Hc Hp) as (z & Hz & Hzp).
    exists x', z. split; [assumption|]. split.
    + rewrite subtree_at_app, Hy'. cbn [subtree_at instance_children].
      now rewrite Hz.
    + rewrite Hzp, length_app. cbn [List.length]. f_equal. lia.
Qed.

(** X16. Every sub-value of the data can be brought on screen by
    clicks.  For each path of child numbers that leads, on the data, to
    a sub-value (the item at that index of a List, the value of the
    property at that position of [Object.keys] of a Record), some tree
    reached by clicks from the first render has a node at that path,
    and that node shows this sub-value; and every item and every
    property value of the data, at any depth, has such a path. *)
Theorem every_value_can_be_shown (data : value) :
  (forall path v,
      value_at data path = Some v ->
      exists x y,
        reachable data x
        /\ subtree_at path x = Some y
        /\ instance_props y = (v, Z.of_nat (List.length path)))
  /\ (forall w,
         subvalue data w ->
         exists path x y,
           value_at data path = Some w
           /\ reachable data x
           /\ subtree_at path x = Some y
           /\ instance_props y = (w, Z.of_nat (List.length path))).
Proof.
  split; [apply value_can_be_shown|].
  intros w Hw. destruct (subvalue_path data w Hw) as [path Hpath].
  destruct (value_can_be_shown data path w Hpath) as (x & y & H).
  now exists path, x, y.
Qed.

Lemma every_value_can_be_shown_witness :
  (exists x y,
      reachable nested_list x
      /\ subtree_at [0%nat; 0%nat] x = Some y
      /\ instance_props y
         = (VNumber 1%float, Z.of_nat (List.length [0%nat; 0%nat])))
  /\ (exists path x y,
         value_at record_b1 path = Some (VNumber 1%float)
         /\ reachable record_b1 x
         /\ subtree_at path x = Some y
         /\ instance_props y = (VNumber 1%float, Z.of_nat (List.length path))).
Proof.
  split.
  - exact (proj1 (every_value_can_be_shown nested_list) [0%nat; 0%nat]
             (VNumber 1%float) eq_refl).
  - apply (proj2 (every_value_can_be_shown record_b1)).
    apply (subvalue_property _ (lit "b") (VNumber 1%float)).
    + repeat constructor; simpl; intuition discriminate.
    + now left.
    + apply subvalue_self.
Defined.
